(** * PuPuBird guess-word assistant: the constraint matcher of [guess.py]

    A shallow embedding of [get_pronunciations], [word_matches] (with its
    nested [backtrack]) and the filtering part of [search_words], followed
    by the properties of the written specification that concern them.

    Conventions of the embedding.
    - A Python [str] is the list of its code points ([list N]); a single
      character (what [word[i]] or iterating a [str] yields) is one code
      point.  String literals of the source are written [lit "zh"].
    - A Python [dict] that is only looked up is a [gmap]; [exact_char_reqs],
      which is iterated with [.items()], is the list of its items in
      insertion order.
    - A Python [set] is represented by its elements in iteration order.  The
      source only iterates sets and tests membership.  The order in which
      [set(...)] enumerates a collection is fixed by the interpreter, not
      by the program: it is the field [py_set] of the environment.
    - Exceptions are explicit: every function that can raise returns a
      [res]. *)

From Stdlib Require Import String Ascii.
From stdpp Require Import base numbers option list gmap strings.

Local Open Scope Z_scope.
Local Open Scope nat_scope.

(** ** Results of a Python call *)

Inductive exn := IndexError | TypeError.

Inductive res (A : Type) : Type :=
| Return (a : A)
| Raise (e : exn)
| OutOfFuel.
Arguments Return {A} a.
Arguments Raise {A} e.
Arguments OutOfFuel {A}.

#[global] Instance exn_eq_dec : EqDecision exn.
Proof. solve_decision. Defined.
#[global] Instance res_eq_dec {A : Type} `{EqDecision A} : EqDecision (res A).
Proof. solve_decision. Defined.

#[global] Instance res_ret : MRet res := fun A a => Return a.
#[global] Instance res_bind : MBind res := fun A B f m =>
  match m with
  | Return a => f a
  | Raise e => Raise e
  | OutOfFuel => OutOfFuel
  end.
#[global] Instance res_fmap : FMap res := fun A B f m =>
  match m with
  | Return a => Return (f a)
  | Raise e => Raise e
  | OutOfFuel => OutOfFuel
  end.

(** ** Strings *)

Abbreviation char := N (only parsing).
Abbreviation str := (list N) (only parsing).

(** The code points of an ASCII literal of the source. *)
Definition lit (s : string) : str := N_of_ascii <$> list_ascii_of_string s.

(** [s[-1]]: raises on the empty string. *)
Definition py_last (s : str) : res char :=
  match last s with
  | Some c => Return c
  | None => Raise IndexError
  end.

(** [s[i]] for a Python integer [i]: negative indices count from the end. *)
Definition py_index (s : str) (i : Z) : res char :=
  let n := Z.of_nat (length s) in
  let j := if bool_decide (i < 0)%Z then (n + i)%Z else i in
  if bool_decide (0 ≤ j < n)%Z then
    match s !! Z.to_nat j with
    | Some c => Return c
    | None => Raise IndexError
    end
  else Raise IndexError.

(** ** The interpreter and library environment *)

Class PyEnv := {
  (** [pinyin(ch, style=Style.TONE3, heteronym=True)[0]] of pypinyin *)
  pinyin : char → list str;
  (** the elements of [set(l)], in the order in which it is iterated *)
  py_set : ∀ {A : Type} `{EqDecision A}, list A → list A;
  py_set_NoDup : ∀ {A : Type} `{EqDecision A} (l : list A), NoDup (py_set l);
  py_set_elem : ∀ {A : Type} `{EqDecision A} (l : list A) (x : A),
    x ∈ py_set l ↔ x ∈ l;
  (** [s.strip()] and [s.lower()] *)
  py_strip : str → str;
  py_lower : str → str;
}.

(** ** Readings *)

(** The dictionary [{"initial": ..., "final": ..., "tone": ...}]. *)
Record Reading := mkReading {
  initial : str;
  final : str;
  tone : str;
}.

#[global] Instance Reading_eq_dec : EqDecision Reading.
Proof. solve_decision. Defined.

(** [p[field]] for one of the three keys of a reading. *)
Definition field_of (field : string) (p : Reading) : option str :=
  if bool_decide (field = "initial"%string) then Some (initial p)
  else if bool_decide (field = "final"%string) then Some (final p)
  else if bool_decide (field = "tone"%string) then Some (tone p)
  else None.

(** ** [get_pronunciations] *)

Definition initials_list : list str :=
  lit <$> ["zh"; "ch"; "sh"; "b"; "p"; "m"; "f"; "d"; "t"; "n"; "l";
           "g"; "k"; "h"; "j"; "q"; "x"; "r"; "z"; "c"; "s"; "y"; "w"]%string.

Definition tone_digits : str := lit "12345".

(** [for ini in initials_list: if syllable.startswith(ini): initial = ini; break],
    started with the value [initial] had before the loop. *)
Fixpoint find_initial (inis : list str) (syllable : str) (initial : str) : str :=
  match inis with
  | [] => initial
  | ini :: inis =>
      if bool_decide (ini `prefix_of` syllable) then ini
      else find_initial inis syllable initial
  end.

(** The tone and the syllable of a transcription (lines 20 to 25). *)
Definition split_tone (py : str) : res (str * str) :=
  c ← py_last py;
  if bool_decide (c ∈ tone_digits)
  then Return ([c], take (length py - 1) py)
  else Return ([], py).

(** The body of the loop over the transcriptions, after the test [if not py]. *)
Definition split_pinyin (py : str) : res Reading :=
  '(tone, syllable) ← split_tone py;
  let initial := find_initial initials_list syllable [] in
  let final := drop (length initial) syllable in
  Return (mkReading initial final tone).

Fixpoint collect_readings (pys : list str) (results : list Reading)
  : res (list Reading) :=
  match pys with
  | [] => Return results
  | py :: pys =>
      if bool_decide (py = []) then collect_readings pys results
      else r ← split_pinyin py; collect_readings pys (results ++ [r])
  end.

Definition get_pronunciations `{PyEnv} (ch : char) : res (list Reading) :=
  let py_list := pinyin ch in
  collect_readings (py_set py_list) [].

(** ** [word_matches] *)

(** [for i, char in exact_char_reqs.items(): if word[i] != char: return False];
    [true] when the loop runs to its end. *)
Fixpoint check_exact (word : str) (items : list (Z * char)) : res bool :=
  match items with
  | [] => Return true
  | (i, char) :: items =>
      c ← py_index word i;
      if bool_decide (c ≠ char) then Return false else check_exact word items
  end.

(** [req.get(field) and v != req[field]], where [v] is [p[field]]. *)
Definition field_mismatch (req : gmap string str) (field : string) (v : str) : bool :=
  match req !! field with
  | Some want => bool_decide (want ≠ []) && bool_decide (v ≠ want)
  | None => false
  end.

(** The flag [ok] of lines 59 to 65. *)
Definition reading_ok (req : gmap string str) (p : Reading) : bool :=
  let ok := true in
  let ok := if field_mismatch req "initial" (initial p) then false else ok in
  let ok := if field_mismatch req "final" (final p) then false else ok in
  let ok := if field_mismatch req "tone" (tone p) then false else ok in
  ok.

(** Lines 55 to 68: the readings kept at position [i]. *)
Definition filter_position (specific_reqs : gmap Z (gmap string str)) (i : nat)
    (poss : list Reading) : list Reading :=
  match specific_reqs !! Z.of_nat i with
  | Some req => List.filter (reading_ok req) poss
  | None => poss
  end.

(** The loop of lines 53 to 71 over [enumerate(word)], from index [i] on;
    [None] is the [return False] of line 70. *)
Fixpoint collect_possibilities `{PyEnv} (specific_reqs : gmap Z (gmap string str))
    (i : nat) (chars : list char) (possibilities : list (list Reading))
  : res (option (list (list Reading))) :=
  match chars with
  | [] => Return (Some possibilities)
  | ch :: chars =>
      poss ← get_pronunciations ch;
      let poss := filter_position specific_reqs i poss in
      if bool_decide (poss = []) then Return None
      else collect_possibilities specific_reqs (S i) chars (possibilities ++ [poss])
  end.

(** [l[i] = x] *)
Definition py_setitem {A : Type} (l : list A) (i : nat) (x : A) : res (list A) :=
  if bool_decide (i < length l) then Return (<[i:=x]> l) else Raise IndexError.

Section backtrack.
(** The variables the closure [backtrack] captures; the list [chosen],
    which it mutates, is threaded through. *)
Context (n : nat) (possibilities : list (list Reading)).
Context (ambiguous_reqs exclude_reqs : gmap string (list str)).

(** [p[field] for p in chosen]: subscripting [None] raises. *)
Fixpoint chosen_values (proj : Reading → str) (chosen : list (option Reading))
  : res (list str) :=
  match chosen with
  | [] => Return []
  | None :: _ => Raise TypeError
  | Some p :: chosen => vs ← chosen_values proj chosen; Return (proj p :: vs)
  end.

(** [for param in ambiguous_reqs.get(field, set()): if param not in values: return False] *)
Definition requirement_met (field : string) (values : list str) : bool :=
  forallb (λ param, bool_decide (param ∈ values))
          (default [] (ambiguous_reqs !! field)).

(** Lines 77 to 89. *)
Definition check_complete (chosen : list (option Reading)) : res bool :=
  initials ← chosen_values initial chosen;
  finals ← chosen_values final chosen;
  tones ← chosen_values tone chosen;
  Return (requirement_met "initial" initials
          && requirement_met "final" finals
          && requirement_met "tone" tones).

(** [field in exclude_reqs and v in exclude_reqs[field]] *)
Definition excluded_by (field : string) (v : str) : bool :=
  match exclude_reqs !! field with
  | Some values => bool_decide (v ∈ values)
  | None => false
  end.

(** The three [continue] tests of lines 91 to 96. *)
Definition excluded (p : Reading) : bool :=
  excluded_by "initial" (initial p)
  || excluded_by "final" (final p)
  || excluded_by "tone" (tone p).

(** The loop of lines 90 to 100 at position [i]; [descend] is the call
    [backtrack(i + 1)]. *)
Fixpoint try_each
    (descend : list (option Reading) → res (bool * list (option Reading)))
    (i : nat) (ps : list Reading) (chosen : list (option Reading))
  : res (bool * list (option Reading)) :=
  match ps with
  | [] => Return (false, chosen)
  | p :: ps =>
      if excluded p then try_each descend i ps chosen
      else
        chosen ← py_setitem chosen i (Some p);
        r ← descend chosen;
        let '(found, chosen) := (r : bool * list (option Reading)) in
        if found then Return (true, chosen)
        else try_each descend i ps chosen
  end.

(** [backtrack(i)], with a bound [fuel] on the depth of the recursion. *)
Fixpoint backtrack (fuel : nat) (i : nat) (chosen : list (option Reading))
  : res (bool * list (option Reading)) :=
  match fuel with
  | 0 => OutOfFuel
  | S fuel =>
      if bool_decide (i = n) then
        b ← check_complete chosen; Return (b, chosen)
      else
        match possibilities !! i with
        | None => Raise IndexError
        | Some ps => try_each (backtrack fuel (i + 1)) i ps chosen
        end
  end.
End backtrack.

(** Where the phonetic part of [word_matches] (lines 52 to 103) ends:
    at the [return False] of line 70, at the one of line 103, or with
    [backtrack(0)] true. *)
Inductive search_result := NoCandidates | Exhausted | Found.

Definition phonetic_search `{PyEnv} (word : str)
    (specific_reqs : gmap Z (gmap string str))
    (ambiguous_reqs exclude_reqs : gmap string (list str)) : res search_result :=
  let n := length word in
  possibilities ← collect_possibilities specific_reqs 0 word [];
  match possibilities with
  | None => Return NoCandidates
  | Some possibilities =>
      let chosen := replicate n None in
      r ← backtrack n possibilities ambiguous_reqs exclude_reqs (S n) 0 chosen;
      let '(found, _) := (r : bool * list (option Reading)) in
      Return (if found then Found else Exhausted)
  end.

Definition word_matches `{PyEnv} (word : str)
    (specific_reqs : gmap Z (gmap string str))
    (ambiguous_reqs exclude_reqs : gmap string (list str))
    (exact_char_reqs : list (Z * char))
    (ambiguous_chars non_exist_chars : list char) : res bool :=
  ok ← check_exact word exact_char_reqs;
  if negb ok then Return false
  else
    found ← phonetic_search word specific_reqs ambiguous_reqs exclude_reqs;
    match found with
    | NoCandidates | Exhausted => Return false
    | Found =>
        if negb (forallb (λ char, bool_decide (char ∈ word)) ambiguous_chars)
        then Return false
        else if existsb (λ char, bool_decide (char ∈ word)) non_exist_chars
        then Return false
        else Return true
    end.

(** ** [search_words] *)

(** The six constraint arguments [search_words] builds and hands to
    [word_matches]. *)
Record Request := mkRequest {
  specific_reqs : gmap Z (gmap string str);
  ambiguous_reqs : gmap string (list str);
  exclude_reqs : gmap string (list str);
  exact_char_reqs : list (Z * char);
  ambiguous_chars : list char;
  non_exist_chars : list char;
}.

Definition matches `{PyEnv} (rq : Request) (word : str) : res bool :=
  word_matches word (specific_reqs rq) (ambiguous_reqs rq) (exclude_reqs rq)
               (exact_char_reqs rq) (ambiguous_chars rq) (non_exist_chars rq).

(** The texts [entry.get()] of one row of [position_inputs]. *)
Record PositionInput := mkPositionInput {
  pos_initial : str;
  pos_final : str;
  pos_tone : str;
  pos_exact : str;
}.

(** The texts of the other entry fields. *)
Record Form := mkForm {
  position_inputs : list PositionInput;
  amb_initial_entry : str;
  amb_final_entry : str;
  amb_tone_entry : str;
  exc_initial_entry : str;
  exc_final_entry : str;
  exc_tone_entry : str;
  amb_chars_entry : str;
  nonexist_chars_entry : str;
}.

(** Truth value of a string: it is not empty. *)
Definition truthy (s : str) : bool := negb (bool_decide (s = [])).

(** [s.split(sep)] for a one-character separator; [cur] is the piece
    being read. *)
Fixpoint py_split (sep : char) (s : str) (cur : str) : list str :=
  match s with
  | [] => [cur]
  | c :: s =>
      if bool_decide (c = sep) then cur :: py_split sep s []
      else py_split sep s (cur ++ [c])
  end.

(** [d[k] = v] on the items of a dictionary. *)
Fixpoint dict_set {V : Type} (items : list (Z * V)) (k : Z) (v : V) : list (Z * V) :=
  match items with
  | [] => [(k, v)]
  | (k', v') :: items =>
      if bool_decide (k' = k) then (k, v) :: items
      else (k', v') :: dict_set items k v
  end.

(** Lines 294 to 305: the pattern of one position, [None] when the three
    texts are empty. *)
Definition position_req `{PyEnv} (inputs : PositionInput) : option (gmap string str) :=
  let initial := py_lower (py_strip (pos_initial inputs)) in
  let final := py_lower (py_strip (pos_final inputs)) in
  let tone := py_strip (pos_tone inputs) in
  if truthy initial || truthy final || truthy tone then
    let req : gmap string str := ∅ in
    let req := if truthy initial then <["initial"%string := initial]> req else req in
    let req := if truthy final then <["final"%string := final]> req else req in
    let req := if truthy tone then <["tone"%string := tone]> req else req in
    Some req
  else None.

(** The loop of lines 293 to 308 over [enumerate(self.position_inputs)]. *)
Fixpoint read_positions `{PyEnv} (i : nat) (inputs : list PositionInput)
    (specific_reqs : gmap Z (gmap string str)) (exact_char_reqs : list (Z * char))
  : gmap Z (gmap string str) * list (Z * char) :=
  match inputs with
  | [] => (specific_reqs, exact_char_reqs)
  | inp :: inputs =>
      let specific_reqs :=
        match position_req inp with
        | Some req => <[Z.of_nat i := req]> specific_reqs
        | None => specific_reqs
        end in
      let exact := py_strip (pos_exact inp) in
      let exact_char_reqs :=
        match exact with
        | c :: _ => dict_set exact_char_reqs (Z.of_nat i) c
        | [] => exact_char_reqs
        end in
      read_positions (S i) inputs specific_reqs exact_char_reqs
  end.

Definition comma : char := 44%N.

(** [set(x.strip() for x in text.split(",") if x.strip())] *)
Definition parse_values `{PyEnv} (text : str) : list str :=
  py_set (py_strip <$> List.filter (λ x, truthy (py_strip x)) (py_split comma text [])).

(** Lines 310 to 319, and 321 to 330 with the other three entries. *)
Definition phonetic_reqs `{PyEnv} (initial_entry final_entry tone_entry : str)
  : gmap string (list str) :=
  let t_initial := py_lower (py_strip initial_entry) in
  let t_final := py_lower (py_strip final_entry) in
  let t_tone := py_strip tone_entry in
  let reqs : gmap string (list str) :=
    <["initial"%string := []]> (<["final"%string := []]> (<["tone"%string := []]> ∅)) in
  let reqs := if truthy t_initial
              then <["initial"%string := parse_values t_initial]> reqs else reqs in
  let reqs := if truthy t_final
              then <["final"%string := parse_values t_final]> reqs else reqs in
  let reqs := if truthy t_tone
              then <["tone"%string := parse_values t_tone]> reqs else reqs in
  reqs.

(** [set(text) if text else set()] on the stripped text (lines 332 to 336). *)
Definition char_set `{PyEnv} (entry : str) : list char :=
  let text := py_strip entry in
  if truthy text then py_set text else [].

(** Lines 291 to 336. *)
Definition build_request `{PyEnv} (form : Form) : Request :=
  let '(specific_reqs, exact_char_reqs) :=
    read_positions 0 (position_inputs form) ∅ [] in
  mkRequest specific_reqs
    (phonetic_reqs (amb_initial_entry form) (amb_final_entry form) (amb_tone_entry form))
    (phonetic_reqs (exc_initial_entry form) (exc_final_entry form) (exc_tone_entry form))
    exact_char_reqs
    (char_set (amb_chars_entry form))
    (char_set (nonexist_chars_entry form)).

(** The loop of lines 339 to 342. *)
Fixpoint match_loop `{PyEnv} (rq : Request) (words : list (str * str))
    (results : list (str * str)) : res (list (str * str)) :=
  match words with
  | [] => Return results
  | (word, dict_type) :: words =>
      b ← matches rq word;
      match_loop rq words (if (b : bool) then results ++ [(word, dict_type)] else results)
  end.

(** Line 288 and the loop: the filter proper, for a request already built. *)
Definition filter_words `{PyEnv} (words : list (str * str)) (len : Z) (rq : Request)
  : res (list (str * str)) :=
  let words := List.filter (λ wt : str * str, bool_decide (Z.of_nat (length wt.1) = len)) words in
  match_loop rq words [].

(** [search_words], from the loaded [words] and the parsed [length] to the
    list [results]; the widgets are read through [form]. *)
Definition search_words `{PyEnv} (form : Form) (words : list (str * str)) (len : Z)
  : res (list (str * str)) :=
  filter_words words len (build_request form).

(** ** What the specification calls a satisfying assignment *)

Definition is_field (field : string) : Prop :=
  field ∈ ["initial"; "final"; "tone"]%string.

(** Every set field of the pattern is matched exactly; a field that is
    missing or empty is not set. *)
Definition matches_pattern (req : gmap string str) (p : Reading) : Prop :=
  ∀ field want v,
    req !! field = Some want → want ≠ [] → field_of field p = Some v → v = want.

(** [p] is a candidate reading of the character [ch] at position [i]: one of
    its decomposed readings that passes the positional pattern of [i]. *)
Definition candidate_reading `{PyEnv} (specific_reqs : gmap Z (gmap string str))
    (i : nat) (ch : char) (p : Reading) : Prop :=
  (∃ rs, get_pronunciations ch = Return rs ∧ p ∈ rs)
  ∧ (∀ req, specific_reqs !! Z.of_nat i = Some req → matches_pattern req p).

(** [p] carries a value listed in [reqs], in some field. *)
Definition carries (reqs : gmap string (list str)) (p : Reading) : Prop :=
  ∃ field values v,
    reqs !! field = Some values ∧ field_of field p = Some v ∧ v ∈ values.

(** Every value listed in [reqs] for a field appears in that field of some
    chosen reading. *)
Definition witnessed (reqs : gmap string (list str)) (a : list Reading) : Prop :=
  ∀ field values v,
    is_field field → reqs !! field = Some values → v ∈ values →
    ∃ p, p ∈ a ∧ field_of field p = Some v.

(** One reading per character of [word], each a candidate of its position,
    none carrying a must-exclude value, all must-exist values witnessed. *)
Definition satisfying_assignment `{PyEnv} (word : str)
    (specific_reqs : gmap Z (gmap string str))
    (ambiguous_reqs exclude_reqs : gmap string (list str))
    (a : list Reading) : Prop :=
  length a = length word
  ∧ (∀ i ch p, word !! i = Some ch → a !! i = Some p →
       candidate_reading specific_reqs i ch p ∧ ¬ carries exclude_reqs p)
  ∧ witnessed ambiguous_reqs a.

(** Every key of [exact_char_reqs] is an index Python accepts for [word]:
    a position [0 ≤ k < len(word)], or a negative index counted from the
    end. *)
Definition exact_in_range (word : str) (items : list (Z * char)) : Prop :=
  ∀ k c, (k, c) ∈ items → (- Z.of_nat (length word) ≤ k < Z.of_nat (length word))%Z.

(** The entries the filter keeps: the word has the target length and the
    matcher returns [True]. *)
Definition accepts `{PyEnv} (len : Z) (rq : Request) (entry : str * str) : bool :=
  bool_decide (Z.of_nat (length entry.1) = len)
  && bool_decide (matches rq entry.1 = Return true).

(** [R2] is [R1] plus one constraint. *)
Inductive adds_constraint (R1 : Request) : Request → Prop :=
| add_positional (k : Z) (field : string) (v : str) :
    (∀ req want, specific_reqs R1 !! k = Some req → req !! field = Some want → want = []) →
    adds_constraint R1
      (mkRequest
         (<[k := <[field := v]> (default ∅ (specific_reqs R1 !! k))]> (specific_reqs R1))
         (ambiguous_reqs R1) (exclude_reqs R1) (exact_char_reqs R1)
         (ambiguous_chars R1) (non_exist_chars R1))
| add_must_exist (field : string) (v : str) (values : list str) :
    (∀ x, x ∈ values ↔ x = v ∨ x ∈ default [] (ambiguous_reqs R1 !! field)) →
    adds_constraint R1
      (mkRequest (specific_reqs R1)
         (<[field := values]> (ambiguous_reqs R1)) (exclude_reqs R1)
         (exact_char_reqs R1) (ambiguous_chars R1) (non_exist_chars R1))
| add_must_exclude (field : string) (v : str) (values : list str) :
    (∀ x, x ∈ values ↔ x = v ∨ x ∈ default [] (exclude_reqs R1 !! field)) →
    adds_constraint R1
      (mkRequest (specific_reqs R1) (ambiguous_reqs R1)
         (<[field := values]> (exclude_reqs R1))
         (exact_char_reqs R1) (ambiguous_chars R1) (non_exist_chars R1))
| add_exact_char (k : Z) (c : char) (before after : list (Z * char)) :
    exact_char_reqs R1 = before ++ after →
    adds_constraint R1
      (mkRequest (specific_reqs R1) (ambiguous_reqs R1) (exclude_reqs R1)
         (before ++ (k, c) :: after) (ambiguous_chars R1) (non_exist_chars R1))
| add_must_contain (c : char) (chars : list char) :
    (∀ x, x ∈ chars ↔ x = c ∨ x ∈ ambiguous_chars R1) →
    adds_constraint R1
      (mkRequest (specific_reqs R1) (ambiguous_reqs R1) (exclude_reqs R1)
         (exact_char_reqs R1) chars (non_exist_chars R1))
| add_must_not_contain (c : char) (chars : list char) :
    (∀ x, x ∈ chars ↔ x = c ∨ x ∈ non_exist_chars R1) →
    adds_constraint R1
      (mkRequest (specific_reqs R1) (ambiguous_reqs R1) (exclude_reqs R1)
         (exact_char_reqs R1) (ambiguous_chars R1) chars).

(** Two requests with the same dictionaries, up to the order in which their
    sets are enumerated. *)
Definition same_sets {A : Type} (l k : list A) : Prop := ∀ x, x ∈ l ↔ x ∈ k.

Definition same_request (R1 R2 : Request) : Prop :=
  specific_reqs R1 = specific_reqs R2
  ∧ (∀ field, same_sets (default [] (ambiguous_reqs R1 !! field))
                        (default [] (ambiguous_reqs R2 !! field)))
  ∧ (∀ field, same_sets (default [] (exclude_reqs R1 !! field))
                        (default [] (exclude_reqs R2 !! field)))
  ∧ exact_char_reqs R1 = exact_char_reqs R2
  ∧ same_sets (ambiguous_chars R1) (ambiguous_chars R2)
  ∧ same_sets (non_exist_chars R1) (non_exist_chars R2).

(** Two interpreters that differ at most in the order in which they
    enumerate sets. *)
Definition same_library (E1 E2 : PyEnv) : Prop :=
  (∀ ch, @pinyin E1 ch = @pinyin E2 ch)
  ∧ (∀ s, @py_strip E1 s = @py_strip E2 s)
  ∧ (∀ s, @py_lower E1 s = @py_lower E2 s).

(** Two forms whose texts differ at most in what [search_words] removes:
    surrounding white space everywhere, and letter case in the initial and
    final entries. *)
Definition same_folded `{PyEnv} (s1 s2 : str) : Prop :=
  py_lower (py_strip s1) = py_lower (py_strip s2).

Definition same_stripped `{PyEnv} (s1 s2 : str) : Prop :=
  py_strip s1 = py_strip s2.

Definition same_position `{PyEnv} (inp1 inp2 : PositionInput) : Prop :=
  same_folded (pos_initial inp1) (pos_initial inp2)
  ∧ same_folded (pos_final inp1) (pos_final inp2)
  ∧ same_stripped (pos_tone inp1) (pos_tone inp2)
  ∧ same_stripped (pos_exact inp1) (pos_exact inp2).

Definition same_form `{PyEnv} (f1 f2 : Form) : Prop :=
  Forall2 same_position (position_inputs f1) (position_inputs f2)
  ∧ same_folded (amb_initial_entry f1) (amb_initial_entry f2)
  ∧ same_folded (amb_final_entry f1) (amb_final_entry f2)
  ∧ same_stripped (amb_tone_entry f1) (amb_tone_entry f2)
  ∧ same_folded (exc_initial_entry f1) (exc_initial_entry f2)
  ∧ same_folded (exc_final_entry f1) (exc_final_entry f2)
  ∧ same_stripped (exc_tone_entry f1) (exc_tone_entry f2)
  ∧ same_stripped (amb_chars_entry f1) (amb_chars_entry f2)
  ∧ same_stripped (nonexist_chars_entry f1) (nonexist_chars_entry f2).

(** ** Closed forms of the loops *)

(** The reading [split_pinyin] returns. *)
Definition reading_of (py : str) : Reading :=
  match split_pinyin py with
  | Return r => r
  | _ => mkReading [] [] []
  end.

(** The list [get_pronunciations] returns. *)
Definition readings `{PyEnv} (ch : char) : list Reading :=
  reading_of <$> List.filter truthy (py_set (pinyin ch)).

(** The lists [collect_possibilities] appends, position by position. *)
Fixpoint candidates `{PyEnv} (specific_reqs : gmap Z (gmap string str))
    (i : nat) (chars : list char) : list (list Reading) :=
  match chars with
  | [] => []
  | ch :: chars =>
      filter_position specific_reqs i (readings ch)
      :: candidates specific_reqs (S i) chars
  end.

(** The test of lines 77 to 89 on a complete list of readings. *)
Definition complete_ok (ambiguous_reqs : gmap string (list str))
    (a : list Reading) : bool :=
  requirement_met ambiguous_reqs "initial" (initial <$> a)
  && requirement_met ambiguous_reqs "final" (final <$> a)
  && requirement_met ambiguous_reqs "tone" (tone <$> a).

(** [suf] completes the readings [pre] chosen for the positions below [i]. *)
Definition completes (possibilities : list (list Reading))
    (ambiguous_reqs exclude_reqs : gmap string (list str))
    (i : nat) (pre suf : list Reading) : Prop :=
  Forall2 (λ p ps, p ∈ ps) suf (drop i possibilities)
  ∧ Forall (λ p, excluded exclude_reqs p = false) suf
  ∧ complete_ok ambiguous_reqs (pre ++ suf) = true.

(** What [backtrack(i)] does when the positions below [i] hold [pre]. *)
Definition backtrack_post (n : nat) (possibilities : list (list Reading))
    (ambiguous_reqs exclude_reqs : gmap string (list str))
    (i : nat) (pre : list Reading)
    (r : res (bool * list (option Reading))) : Prop :=
  ∃ b chosen',
    r = Return (b, chosen')
    ∧ length chosen' = n
    ∧ take i chosen' = Some <$> pre
    ∧ (b = true ↔ ∃ suf, completes possibilities ambiguous_reqs exclude_reqs i pre suf).

(** ** A small environment to run the functions on *)

Definition is_space (c : char) : bool :=
  bool_decide (c ∈ [9; 10; 11; 12; 13; 32]%N).

Fixpoint strip_left (s : str) : str :=
  match s with
  | c :: s' => if is_space c then strip_left s' else s
  | [] => []
  end.

Definition toy_strip (s : str) : str :=
  reverse (strip_left (reverse (strip_left s))).

Definition toy_lower (s : str) : str :=
  (λ c, if bool_decide (65 ≤ c ≤ 90)%N then (c + 32)%N else c) <$> s.

(** A dictionary of six characters: U+91CD with two readings, U+5E86,
    U+4ECE, U+5BB9, U+6BDB, and U+5463 whose transcription is a bare
    consonant. *)
Definition toy_pinyin (ch : char) : list str :=
  if bool_decide (ch = 0x91cd%N) then [lit "zhong4"; lit "chong2"]
  else if bool_decide (ch = 0x5e86%N) then [lit "qing4"]
  else if bool_decide (ch = 0x4ece%N) then [lit "cong2"]
  else if bool_decide (ch = 0x5bb9%N) then [lit "rong2"]
  else if bool_decide (ch = 0x6bdb%N) then [lit "mao2"]
  else if bool_decide (ch = 0x5463%N) then [lit "m2"]
  else [].

Definition toy_env : PyEnv := {|
  pinyin := toy_pinyin;
  py_set := λ A _ l, remove_dups l;
  py_set_NoDup := λ A _ l, NoDup_remove_dups l;
  py_set_elem := λ A _ l x, elem_of_remove_dups l x;
  py_strip := toy_strip;
  py_lower := toy_lower;
|}.

Definition chongqing : str * str := ([0x91cd%N; 0x5e86%N], lit "places").
Definition congrong : str * str := ([0x4ece%N; 0x5bb9%N], lit "other").
Definition mao : str * str := ([0x6bdb%N], lit "other").

(** The request [positional = {0: {tone: "4"}}], and the same with the
    must-exist initial q. *)
Definition tone4_at_0 : Request :=
  mkRequest {[ 0%Z := {[ "tone"%string := lit "4" ]} ]} ∅ ∅ [] [] [].
Definition tone4_q : Request :=
  mkRequest {[ 0%Z := {[ "tone"%string := lit "4" ]} ]}
            (<[ "initial"%string := [lit "q"] ]> ∅) ∅ [] [] [].



(** A form of one row with the given initial text and nothing else. *)
Definition initial_form (text : str) : Form :=
  mkForm [mkPositionInput text [] [] []] [] [] [] [] [] [] [] [].

(** A form of two rows: tone 4 at the first position, must-exist
    initials zh and q. *)
Definition two_row_form : Form :=
  mkForm [mkPositionInput [] [] (lit "4") []; mkPositionInput [] [] [] []]
         (lit "zh, q") [] [] [] [] [] [] [].

Definition zh_ong_4 : Reading := mkReading (lit "zh") (lit "ong") (lit "4").
Definition ch_ong_2 : Reading := mkReading (lit "ch") (lit "ong") (lit "2").

(** The same dictionary under an interpreter that enumerates sets the
    other way round. *)
Definition toy_env_rev : PyEnv := {|
  pinyin := toy_pinyin;
  py_set := λ A _ l, reverse (remove_dups l);
  py_set_NoDup := λ A _ l,
    proj2 (NoDup_Permutation_proper _ _ (reverse_Permutation _)) (NoDup_remove_dups l);
  py_set_elem := λ A _ l x,
    iff_trans (elem_of_reverse x _) (elem_of_remove_dups l x);
  py_strip := toy_strip;
  py_lower := toy_lower;
|}.

(** ** The rest of the window *)

(** *** [generate_position_inputs] *)

(** A row whose four entries are empty, as [ttk.Entry] creates them. *)
Definition blank_row : PositionInput := mkPositionInput [] [] [] [].

(** [range(length)] *)
Definition py_range (len : Z) : list Z := Z.of_nat <$> seq 0 (Z.to_nat len).

(** The list [self.position_inputs] after the call; [None] is the
    [ValueError] of [int(...)], which leaves the list empty. *)
Definition generate_position_inputs (len : option Z) : list PositionInput :=
  let position_inputs := [] in
  match len with
  | None => position_inputs
  | Some len =>
      foldl (λ position_inputs _, position_inputs ++ [blank_row])
            position_inputs (py_range len)
  end.

(** The form right after [generate_position_inputs], nothing typed in. *)
Definition blank_form (len : option Z) : Form :=
  mkForm (generate_position_inputs len) [] [] [] [] [] [] [] [].

(** *** [load_selected_words] *)

(** [self.dict_options], in the order of the source. *)
Definition dict_options : list (string * str) :=
  [("THUOCL_animal.txt", [0x52a8; 0x7269; 0x8bcd; 0x5e93]);
   ("THUOCL_car.txt", [0x6c7d; 0x8f66; 0x8bcd; 0x5e93]);
   ("THUOCL_law.txt", [0x6cd5; 0x5f8b; 0x8bcd; 0x5e93]);
   ("THUOCL_food.txt", [0x98df; 0x54c1; 0x8bcd; 0x5e93]);
   ("THUOCL_medical.txt", [0x533b; 0x7597; 0x8bcd; 0x5e93]);
   ("THUOCL_poem.txt", [0x8bd7; 0x8bcd; 0x8bcd; 0x5e93]);
   ("THUOCL_lishimingren.txt", [0x5386; 0x53f2; 0x540d; 0x4eba; 0x8bcd; 0x5e93]);
   ("THUOCL_diming.txt", [0x5730; 0x540d; 0x8bcd; 0x5e93]);
   ("THUOCL_chengyu.txt", [0x6210; 0x8bed; 0x8bcd; 0x5e93]);
   ("THUOCL_it.txt", [0x49; 0x54; 0x8bcd; 0x5e93]);
   ("THUOCL_caijing.txt", [0x8d22; 0x7ecf; 0x8bcd; 0x5e93]);
   ("wiki.txt", [0x7ef4; 0x57fa; 0x767e; 0x79d1])]%string%N.

(** [d[k]] on the items of a dictionary with string keys; [None] is
    [KeyError]. *)
Fixpoint dict_get {V : Type} (items : list (string * V)) (k : string) : option V :=
  match items with
  | [] => None
  | (k', v) :: items => if bool_decide (k' = k) then Some v else dict_get items k
  end.

Section whitespace.
(** [c.isspace()] for one character. *)
Context (isspace : char → bool).

(** [s.lstrip()] *)
Fixpoint ws_lstrip (s : str) : str :=
  match s with
  | c :: s' => if isspace c then ws_lstrip s' else s
  | [] => []
  end.

(** [s.strip()] *)
Definition ws_strip (s : str) : str :=
  reverse (ws_lstrip (reverse (ws_lstrip s))).

(** [s.split()]: the maximal runs of characters that are not white space;
    [cur] is the run being read. *)
Fixpoint ws_split (s : str) (cur : str) : list str :=
  match s with
  | [] => if bool_decide (cur = []) then [] else [cur]
  | c :: s =>
      if isspace c
      then (if bool_decide (cur = []) then ws_split s [] else cur :: ws_split s [])
      else ws_split s (cur ++ [c])
  end.
End whitespace.

(** The environment's [strip] is the one that [isspace] defines. *)
Definition strips_spaces `{PyEnv} (isspace : char → bool) : Prop :=
  ∀ s, py_strip s = ws_strip isspace s.

(** What [open(filename, encoding="utf-8")] and the reading of the file can
    raise: [open] on a directory or on a file that may not be read, the
    decoder on bytes that are not UTF-8, and any other error of the
    operating system. *)
Inductive io_error :=
  IsADirectoryError | PermissionError | UnicodeDecodeError | OtherOSError.

(** A path for which [os.path.exists] is true: [open] raises, or it gives
    a file whose iteration [for line in f] yields, step by step, a line or
    an exception. *)
Inductive path_state :=
| OpenRaises (e : io_error)
| Opened (reads : list (io_error + str)).

(** The exceptions the body of [load_selected_words] could raise:
    [parts[0]], [self.dict_options[filename]], and those of the file. *)
Inductive load_error := PartsIndexError | LabelKeyError | FileError (e : io_error).

(** [[file for file, var in self.dict_vars.items() if var.get()]]; the keys
    of [dict_vars] are those of [dict_options], in the same order. *)
Definition selected_files (checked : string → bool) : list string :=
  List.filter checked (fst <$> dict_options).

(** The loop over the lines of one file. *)
Fixpoint load_lines `{PyEnv} (isspace : char → bool) (filename : string)
    (reads : list (io_error + str)) (words : list (str * str))
  : load_error + list (str * str) :=
  match reads with
  | [] => inr words
  | inl e :: _ => inl (FileError e)
  | inr line :: reads =>
      let line := py_strip line in
      if negb (truthy line) then load_lines isspace filename reads words
      else
        let parts := ws_split isspace line [] in
        match parts with
        | [] => inl PartsIndexError
        | word :: _ =>
            match dict_get dict_options filename with
            | None => inl LabelKeyError
            | Some label =>
                load_lines isspace filename reads (words ++ [(word, label)])
            end
        end
  end.

(** The loop over the selected files; [fs filename] is [None] when
    [os.path.exists(filename)] is false. *)
Fixpoint load_files `{PyEnv} (isspace : char → bool) (fs : string → option path_state)
    (files : list string) (words : list (str * str)) : load_error + list (str * str) :=
  match files with
  | [] => inr words
  | filename :: files =>
      match fs filename with
      | None => load_files isspace fs files words
      | Some (OpenRaises e) => inl (FileError e)
      | Some (Opened reads) =>
          match load_lines isspace filename reads words with
          | inl e => inl e
          | inr words => load_files isspace fs files words
          end
      end
  end.

Definition load_selected_words `{PyEnv} (isspace : char → bool)
    (fs : string → option path_state) (checked : string → bool)
  : load_error + list (str * str) :=
  let selected := selected_files checked in
  if bool_decide (selected = []) then inr []
  else load_files isspace fs selected [].

(** The lines of a file read to its end, or the first exception met. *)
Fixpoint read_lines (reads : list (io_error + str)) : io_error + list str :=
  match reads with
  | [] => inr []
  | inl e :: _ => inl e
  | inr line :: reads =>
      match read_lines reads with
      | inl e => inl e
      | inr lines => inr (line :: lines)
      end
  end.

Definition read_all (p : path_state) : io_error + list str :=
  match p with
  | OpenRaises e => inl e
  | Opened reads => read_lines reads
  end.

(** The first exception met when the files are read in order. *)
Fixpoint first_failure (fs : string → option path_state) (files : list string)
  : option io_error :=
  match files with
  | [] => None
  | filename :: files =>
      match read_all <$> fs filename with
      | Some (inl e) => Some e
      | _ => first_failure fs files
      end
  end.

(** The entry a line contributes: its first token, with the label of the
    file. *)
Definition line_entry `{PyEnv} (isspace : char → bool) (label : str) (line : str)
  : option (str * str) :=
  (λ word, (word, label)) <$> head (ws_split isspace (py_strip line) []).

(** The entries a file contributes, when it is read to its end. *)
Definition file_entries `{PyEnv} (isspace : char → bool)
    (fs : string → option path_state) (filename : string) : list (str * str) :=
  match read_all <$> fs filename, dict_get dict_options filename with
  | Some (inr lines), Some label => omap (line_entry isspace label) lines
  | _, _ => []
  end.

(** *** Descriptions used for the request *)

(** The items [read_positions] adds to [exact_char_reqs], from row [i] on. *)
Fixpoint exact_items `{PyEnv} (i : nat) (inputs : list PositionInput) : list (Z * char) :=
  match inputs with
  | [] => []
  | inp :: inputs =>
      match py_strip (pos_exact inp) with
      | c :: _ => (Z.of_nat i, c) :: exact_items (S i) inputs
      | [] => exact_items (S i) inputs
      end
  end.

(** Every character of the word has a transcription that is not empty. *)
Definition pronounceable `{PyEnv} (word : str) : Prop :=
  Forall (λ ch, Exists (λ py, py ≠ []) (pinyin ch)) word.

#[global] Instance pronounceable_dec `{PyEnv} (word : str) : Decision (pronounceable word).
Proof. unfold pronounceable. apply _. Defined.

(** The candidate lists without the readings that carry an excluded value. *)
Definition prune (exclude_reqs : gmap string (list str))
    (possibilities : list (list Reading)) : list (list Reading) :=
  List.filter (λ p, negb (excluded exclude_reqs p)) <$> possibilities.

(** A small file system for the examples: one dictionary can be read, one
    path is a directory, one file is not UTF-8 after its first line. *)
Definition toy_fs (filename : string) : option path_state :=
  if bool_decide (filename = "THUOCL_diming.txt"%string)
  then Some (Opened [inr [0x91cd; 0x5e86; 32; 49; 48; 48; 10]%N; inr [10]%N;
                     inr [32; 0x4ece; 0x5bb9; 9; 53; 10]%N])
  else if bool_decide (filename = "THUOCL_it.txt"%string)
  then Some (OpenRaises IsADirectoryError)
  else if bool_decide (filename = "wiki.txt"%string)
  then Some (Opened [inr [0x6bdb; 10]%N; inl UnicodeDecodeError])
  else None.

Definition toy_checked (filename : string) : bool :=
  bool_decide (filename ∈ ["THUOCL_car.txt"; "THUOCL_diming.txt"]%string).

(** The toy dictionary with one more transcription for every character. *)
Definition toy_env_more : PyEnv := {|
  pinyin := λ ch, toy_pinyin ch ++ [lit "tong2"];
  py_set := λ A _ l, remove_dups l;
  py_set_NoDup := λ A _ l, NoDup_remove_dups l;
  py_set_elem := λ A _ l x, elem_of_remove_dups l x;
  py_strip := toy_strip;
  py_lower := toy_lower;
|}.

(** * Properties *)

(** ** Decomposition *)

Lemma py_last_Some (s : list N) c : last s = Some c → py_last s = Return c.
Proof. unfold py_last. by intros ->. Qed.

Lemma last_nonempty (s : list N) : s ≠ [] → ∃ s' c, s = s' ++ [c] ∧ last s = Some c.
Proof.
  intros Hs. destruct (last s) as [c|] eqn:Hl.
  - apply last_Some in Hl as [s' ->]. eauto using last_snoc.
  - apply last_None in Hl. done.
Qed.

Lemma take_snoc_pred (s' : list N) c : take (length (s' ++ [c]) - 1) (s' ++ [c]) = s'.
Proof.
  rewrite length_app. simpl. replace (length s' + 1 - 1) with (length s') by lia.
  by rewrite take_app_length.
Qed.

Lemma find_initial_first inis (s dflt : list N) k ini :
  inis !! k = Some ini → ini `prefix_of` s →
  (∀ j ini', j < k → inis !! j = Some ini' → ¬ ini' `prefix_of` s) →
  find_initial inis s dflt = ini.
Proof.
  revert k. induction inis as [|x inis IH]; intros k Hk Hp Hbefore; [done|].
  simpl. destruct k as [|k]; simpl in Hk.
  - injection Hk as ->. by rewrite bool_decide_true.
  - rewrite bool_decide_false; [|by apply (Hbefore 0 x); [lia|]].
    apply (IH k); [done..|]. intros j ini' Hj Hl. apply (Hbefore (S j)); [lia|done].
Qed.

Lemma find_initial_cases inis (s dflt : list N) :
  (∃ k, inis !! k = Some (find_initial inis s dflt)
        ∧ find_initial inis s dflt `prefix_of` s
        ∧ ∀ j ini', j < k → inis !! j = Some ini' → ¬ ini' `prefix_of` s)
  ∨ (find_initial inis s dflt = dflt ∧ ∀ ini, ini ∈ inis → ¬ ini `prefix_of` s).
Proof.
  induction inis as [|x inis IH]; simpl.
  - right. split; [done|]. intros ini Hin. by apply elem_of_nil in Hin.
  - case_bool_decide as Hx.
    + left. exists 0. split_and!; [done..|]. intros j ini' Hj. lia.
    + destruct IH as [(k & Hk & Hp & Hb)|[Hd Hno]].
      * left. exists (S k). split_and!; [done..|].
        intros [|j] ini' Hj Hl; simpl in Hl; [by injection Hl as <-|].
        apply (Hb j); [lia|done].
      * right. split; [done|]. intros ini [->|Hin]%elem_of_cons; auto.
Qed.

Lemma prefix_app_drop (ini s : list N) : ini `prefix_of` s → s = ini ++ drop (length ini) s.
Proof. intros [k ->]. by rewrite drop_app_length. Qed.


Lemma split_tone_nonempty (py : list N) : py ≠ [] →
  ∃ s' c, py = s' ++ [c] ∧
    split_tone py = Return (if bool_decide (c ∈ tone_digits) then ([c], s') else ([], py)).
Proof.
  intros (s' & c & -> & Hl)%last_nonempty. exists s', c. split; [done|].
  unfold split_tone. rewrite (py_last_Some _ c Hl). simpl.
  case_bool_decide; [|done]. by rewrite take_snoc_pred.
Qed.

Lemma split_pinyin_nonempty (py : list N) : py ≠ [] → split_pinyin py = Return (reading_of py).
Proof.
  intros (s' & c & -> & Ht)%split_tone_nonempty.
  unfold reading_of, split_pinyin. rewrite Ht. by case_bool_decide.
Qed.

Lemma find_initial_prefix inis (s : list N) : find_initial inis s [] `prefix_of` s.
Proof.
  destruct (find_initial_cases inis s []) as [(k & _ & Hp & _)|[-> _]];
    [done|apply prefix_nil].
Qed.

(** The reading built from a non-empty transcription, written out. *)
Lemma split_pinyin_unfold (py : list N) :
  py ≠ [] →
  ∃ s' c, py = s' ++ [c] ∧
    split_pinyin py =
    Return (let syllable := if bool_decide (c ∈ tone_digits) then s' else py in
            let ini := find_initial initials_list syllable [] in
            mkReading ini (drop (length ini) syllable)
                      (if bool_decide (c ∈ tone_digits) then [c] else [])).
Proof.
  intros (s' & c & Hpy & Ht)%split_tone_nonempty. exists s', c. split; [done|].
  unfold split_pinyin. rewrite Ht. by case_bool_decide.
Qed.


Lemma collect_readings_spec (pys : list (list N)) acc :
  collect_readings pys acc = Return (acc ++ (reading_of <$> List.filter truthy pys)).
Proof.
  revert acc. induction pys as [|py pys IH]; intros acc; simpl.
  - by rewrite app_nil_r.
  - unfold truthy at 1. case_bool_decide as Hpy; simpl; [apply IH|].
    rewrite (split_pinyin_nonempty _ Hpy). simpl. rewrite IH.
    by rewrite <-app_assoc.
Qed.


Lemma get_pronunciations_spec `{PyEnv} ch : get_pronunciations ch = Return (readings ch).
Proof. unfold get_pronunciations. by rewrite collect_readings_spec. Qed.

Lemma elem_of_List_filter {A} (f : A → bool) (l : list A) x :
  x ∈ List.filter f l ↔ x ∈ l ∧ f x = true.
Proof. by rewrite !list_elem_of_In, filter_In. Qed.

Lemma truthy_true (s : list N) : truthy s = true ↔ s ≠ [].
Proof. unfold truthy. by rewrite negb_true_iff, bool_decide_eq_false. Qed.

Lemma elem_of_readings `{PyEnv} ch r :
  r ∈ readings ch ↔ ∃ py, py ∈ pinyin ch ∧ py ≠ [] ∧ split_pinyin py = Return r.
Proof.
  unfold readings. rewrite list_elem_of_fmap. split.
  - intros (py & -> & [Hin Ht]%elem_of_List_filter).
    rewrite py_set_elem in Hin. apply truthy_true in Ht.
    exists py. split_and!; [done..|by apply split_pinyin_nonempty].
  - intros (py & Hin & Hne & Hs). exists py.
    rewrite split_pinyin_nonempty in Hs by done. injection Hs as <-. split; [reflexivity|].
    apply elem_of_List_filter. split; [by apply py_set_elem|by apply truthy_true].
Qed.

Lemma initials_fixed : Forall (λ s, find_initial initials_list s [] = s) initials_list.
Proof. unfold initials_list. simpl. repeat (constructor; [by vm_compute|]). constructor. Qed.

Lemma initial_in_list (s : list N) :
  find_initial initials_list s [] = [] ∨ find_initial initials_list s [] ∈ initials_list.
Proof.
  destruct (find_initial_cases initials_list s []) as [(k & Hk & _)|[-> _]]; [|by left].
  right. by eapply list_elem_of_lookup_2.
Qed.

Lemma reading_shape (py : list N) r :
  split_pinyin py = Return r →
  py = initial r ++ final r ++ tone r
  ∧ (tone r = [] ∨ ∃ d, d ∈ lit "12345" ∧ tone r = [d])
  ∧ (final r = [] ↔ initial r ++ final r = [] ∨ initial r ++ final r ∈ initials_list).
Proof.
  intros Hs. assert (py ≠ []) as Hne.
  { intros ->. by vm_compute in Hs. }
  destruct (split_pinyin_unfold py Hne) as (s' & c & Hpy & Hr). cbv zeta in Hr.
  set (syllable := if bool_decide (c ∈ tone_digits) then s' else py) in Hr.
  pose proof (prefix_app_drop _ _ (find_initial_prefix initials_list syllable)) as Hsyl.
  set (ini := find_initial initials_list syllable []) in *.
  assert (r = mkReading ini (drop (length ini) syllable)
                        (if bool_decide (c ∈ tone_digits) then [c] else [])) as ->
    by congruence.
  clear Hs Hr. cbn [initial final tone].
  split_and!.
  - rewrite app_assoc, <-Hsyl. unfold syllable. case_bool_decide; [done|].
    by rewrite app_nil_r.
  - case_bool_decide; [right; eauto|by left].
  - rewrite <-Hsyl. split.
    + intros Hf. rewrite Hf, app_nil_r in Hsyl. rewrite Hsyl.
      destruct (initial_in_list syllable) as [Hi|Hi]; fold ini in Hi; [left|right]; done.
    + intros [Hnil|Hin].
      * rewrite Hnil. by rewrite drop_nil.
      * pose proof initials_fixed as Hfix. rewrite Forall_forall in Hfix.
        apply Hfix in Hin. fold ini in Hin.
        rewrite Hin. by rewrite drop_all.
Qed.

(** C6. For a transcription that is not empty: when its last character is
    one of the digits 1 to 5, that digit is the tone and the syllable is the
    rest, otherwise the tone is empty and the syllable is the whole
    transcription; the initial is the first entry of [initials_list], in
    the order of the list, that the syllable starts with, and it is empty
    when there is none; the final is what follows the initial.  In the list
    zh, ch and sh come before z, c and s, so that a syllable that starts
    with zh, ch or sh gets that cluster as its initial. *)
Theorem decomposition_rule (py : list N) :
  py ≠ [] →
  ∃ r syllable,
    split_pinyin py = Return r
    ∧ ((∃ d, d ∈ lit "12345" ∧ py = syllable ++ [d] ∧ tone r = [d])
       ∨ ((∀ d, last py = Some d → d ∉ lit "12345") ∧ syllable = py ∧ tone r = []))
    ∧ ((∃ k, initials_list !! k = Some (initial r)
             ∧ initial r `prefix_of` syllable
             ∧ ∀ j ini, j < k → initials_list !! j = Some ini → ¬ ini `prefix_of` syllable)
       ∨ (initial r = [] ∧ ∀ ini, ini ∈ initials_list → ¬ ini `prefix_of` syllable))
    ∧ syllable = initial r ++ final r
    ∧ (∀ c, c ∈ ["z"; "c"; "s"]%string →
         (∃ i j, i < j ∧ initials_list !! i = Some (lit (c +:+ "h"))
                 ∧ initials_list !! j = Some (lit c))
         ∧ (lit (c +:+ "h") `prefix_of` syllable → initial r = lit (c +:+ "h"))).
Proof.
  intros (s' & c & Hpy & Hr)%split_pinyin_unfold. cbv zeta in Hr.
  set (syllable := if bool_decide (c ∈ tone_digits) then s' else py) in *.
  eexists _, syllable. split; [exact Hr|]. cbn [initial final tone].
  split_and!.
  - unfold syllable. case_bool_decide as Hc.
    + left. exists c. done.
    + right. split_and!; [|done..]. intros d. rewrite Hpy, last_snoc. by intros [= <-].
  - destruct (find_initial_cases initials_list syllable []) as [?|?]; [by left|by right].
  - apply prefix_app_drop, find_initial_prefix.
  - intros c0 Hc0.
    assert (c0 = "z" ∨ c0 = "c" ∨ c0 = "s")%string as Hcases.
    { rewrite !elem_of_cons in Hc0. rewrite elem_of_nil in Hc0. tauto. }
    destruct Hcases as [-> | [-> | ->]].
    + split; [by exists 0, 18; split_and!; [lia|done..]|].
      intros Hp. by apply (find_initial_first _ _ _ 0); [done..|intros; lia].
    + split; [by exists 1, 19; split_and!; [lia|done..]|].
      intros Hp. apply (find_initial_first _ _ _ 1); [done..|].
      intros [|j] ini' Hj Hl; [|lia]. vm_compute in Hl. injection Hl as <-.
      destruct Hp as [k1 ->]. intros [k2 Hk2]. vm_compute in Hk2. discriminate.
    + split; [by exists 2, 20; split_and!; [lia|done..]|].
      intros Hp. apply (find_initial_first _ _ _ 2); [done..|].
      intros [|[|j]] ini' Hj Hl; [| |lia]; vm_compute in Hl; injection Hl as <-;
        destruct Hp as [k1 ->]; intros [k2 Hk2]; vm_compute in Hk2; discriminate.
Qed.

Lemma decomposition_rule_witness :
  lit "zhong4" ≠ []
  ∧ ∃ r, split_pinyin (lit "zhong4") = Return r
         ∧ initial r = lit "zh" ∧ final r = lit "ong" ∧ tone r = lit "4".
Proof.
  assert (lit "zhong4" ≠ []) as Hne by done.
  split; [exact Hne|].
  destruct (decomposition_rule (lit "zhong4") Hne)
    as (r & syllable & Hr & Htone & _ & Hsyl & Hclusters).
  exists r. split; [exact Hr|].
  assert (syllable = lit "zhong" ∧ tone r = lit "4") as [-> Ht].
  { destruct Htone as [(d & _ & Hpy & ->)|(Hlast & _)].
    - change (lit "zhong4") with (lit "zhong" ++ [52%N]) in Hpy.
      by apply app_inj_tail in Hpy as [<- <-].
    - exfalso. apply (Hlast 52%N); [reflexivity|]. by apply (bool_decide_unpack _). }
  destruct (Hclusters "z"%string) as [_ Hzh]; [left|].
  assert (initial r = lit "zh") as Hi.
  { apply Hzh. by exists (lit "ong"). }
  split_and!; [done| |done]. rewrite Hi in Hsyl.
  change (lit "zhong") with (lit "zh" ++ lit "ong") in Hsyl.
  by apply app_inv_head in Hsyl.
Defined.

(** C7, as the code has it.  [get_pronunciations] never raises.  It skips a
    transcription only when it is the empty string; every other one yields
    a reading whose three parts, put together again, give the
    transcription back, and whose tone is empty or one of the digits 1 to
    5.  The final of a reading is empty exactly when the syllable left
    after the tone is empty or is itself one of the listed initials. *)
Theorem decomposition_total `{PyEnv} (ch : N) :
  ∃ rs, get_pronunciations ch = Return rs
    ∧ (∀ r, r ∈ rs ↔ ∃ py, py ∈ pinyin ch ∧ py ≠ [] ∧ split_pinyin py = Return r)
    ∧ (∀ py r, split_pinyin py = Return r →
         py = initial r ++ final r ++ tone r
         ∧ (tone r = [] ∨ ∃ d, d ∈ lit "12345" ∧ tone r = [d])
         ∧ (final r = [] ↔ initial r ++ final r = [] ∨ initial r ++ final r ∈ initials_list)).
Proof.
  exists (readings ch). split_and!.
  - apply get_pronunciations_spec.
  - apply elem_of_readings.
  - apply reading_shape.
Qed.

(** C7, as stated, fails: the transcription "m2" is not skipped and yields a
    reading whose final is empty, and so does a character that has this
    transcription. *)
Lemma empty_final_reading :
  ¬ (∀ py r, split_pinyin py = Return r → final r ≠ [])
  ∧ ¬ (∀ (E : PyEnv) ch rs r, get_pronunciations ch = Return rs → r ∈ rs → final r ≠ []).
Proof.
  split; intros Hall.
  - by apply (Hall (lit "m2") (mkReading (lit "m") [] (lit "2"))).
  - apply (Hall toy_env 0x5463%N [mkReading (lit "m") [] (lit "2")]
                (mkReading (lit "m") [] (lit "2"))); [done|left|done].
Qed.

(** ** The search *)

Lemma field_of_Some field p v :
  field_of field p = Some v →
  (field = "initial"%string ∧ v = initial p)
  ∨ (field = "final"%string ∧ v = final p)
  ∨ (field = "tone"%string ∧ v = tone p).
Proof.
  unfold field_of. repeat case_bool_decide; naive_solver.
Qed.

Lemma is_field_cases field :
  is_field field ↔ field = "initial"%string ∨ field = "final"%string ∨ field = "tone"%string.
Proof.
  unfold is_field. rewrite !elem_of_cons, elem_of_nil. tauto.
Qed.

Lemma field_mismatch_false req field v :
  field_mismatch req field v = false ↔
  ∀ want, req !! field = Some want → want ≠ [] → v = want.
Proof.
  unfold field_mismatch. destruct (req !! field) as [want|]; [|naive_solver].
  rewrite andb_false_iff, !bool_decide_eq_false. split.
  - intros [Hw|Hv] want' [= <-] Hne; [done|]. by apply dec_stable.
  - intros Hall. destruct (decide (want = [])) as [->|Hne]; [left; auto|].
    right. intros Hv. by apply Hv, Hall.
Qed.

Lemma reading_ok_unfold req p :
  reading_ok req p =
  negb (field_mismatch req "initial" (initial p))
  && negb (field_mismatch req "final" (final p))
  && negb (field_mismatch req "tone" (tone p)).
Proof. unfold reading_ok. by repeat destruct (field_mismatch _ _ _). Qed.

Lemma reading_ok_spec req p : reading_ok req p = true ↔ matches_pattern req p.
Proof.
  rewrite reading_ok_unfold, !andb_true_iff, !negb_true_iff, !field_mismatch_false.
  unfold matches_pattern. split.
  - intros [[Hi Hfi] Ht] field want v Hreq Hne Hf.
    apply field_of_Some in Hf as [[-> ->]|[[-> ->]|[-> ->]]]; eauto.
  - intros Hall. split_and!; intros want Hreq Hne; eapply Hall; done.
Qed.

Lemma excluded_by_true exc field v :
  excluded_by exc field v = true ↔ ∃ values, exc !! field = Some values ∧ v ∈ values.
Proof.
  unfold excluded_by. destruct (exc !! field) as [values|].
  - rewrite bool_decide_eq_true. split; [eauto|]. by intros (vs & [= <-] & ?).
  - split; [done|]. by intros (vs & ? & ?).
Qed.

Lemma excluded_spec exc p : excluded exc p = true ↔ carries exc p.
Proof.
  unfold excluded, carries. rewrite !orb_true_iff, !excluded_by_true. split.
  - intros [[(vs & ? & ?)|(vs & ? & ?)]|(vs & ? & ?)].
    + exists "initial"%string, vs, (initial p). done.
    + exists "final"%string, vs, (final p). done.
    + exists "tone"%string, vs, (tone p). done.
  - intros (field & vs & v & Hl & Hf & Hin).
    apply field_of_Some in Hf as [[-> ->]|[[-> ->]|[-> ->]]]; eauto.
Qed.

Lemma excluded_false exc p : excluded exc p = false ↔ ¬ carries exc p.
Proof. rewrite <-excluded_spec. by destruct (excluded exc p). Qed.

Lemma requirement_met_spec amb field (proj : Reading → list N) (a : list Reading) :
  requirement_met amb field (proj <$> a) = true ↔
  ∀ values v, amb !! field = Some values → v ∈ values → ∃ p, p ∈ a ∧ proj p = v.
Proof.
  unfold requirement_met. rewrite forallb_forall. split.
  - intros Hall values v Hl Hin. rewrite Hl in Hall. simpl in Hall.
    apply list_elem_of_In, Hall, bool_decide_eq_true, list_elem_of_fmap in Hin
      as (p & -> & Hp). eauto.
  - intros Hall v Hin. apply bool_decide_eq_true, list_elem_of_fmap.
    destruct (amb !! field) as [values|]; simpl in Hin; [|done].
    apply list_elem_of_In in Hin.
    destruct (Hall values v eq_refl Hin) as (p & Hp & <-). eauto.
Qed.

Lemma complete_ok_spec amb a : complete_ok amb a = true ↔ witnessed amb a.
Proof.
  unfold complete_ok, witnessed. rewrite !andb_true_iff, !requirement_met_spec. split.
  - intros [[Hi Hf] Ht] field values v [-> | [-> | ->]]%is_field_cases Hl Hin.
    + destruct (Hi values v Hl Hin) as (p & ? & <-). eauto.
    + destruct (Hf values v Hl Hin) as (p & ? & <-). eauto.
    + destruct (Ht values v Hl Hin) as (p & ? & <-). eauto.
  - intros Hall. split_and!; intros values v Hl Hin.
    + destruct (Hall "initial"%string values v) as (p & ? & [= <-]);
        [apply is_field_cases; auto|done..|eauto].
    + destruct (Hall "final"%string values v) as (p & ? & [= <-]);
        [apply is_field_cases; auto|done..|eauto].
    + destruct (Hall "tone"%string values v) as (p & ? & [= <-]);
        [apply is_field_cases; auto|done..|eauto].
Qed.

Lemma chosen_values_Some (proj : Reading → list N) (a : list Reading) :
  chosen_values proj (Some <$> a) = Return (proj <$> a).
Proof.
  induction a as [|p a IH]; [done|].
  rewrite !fmap_cons. cbn [chosen_values]. by rewrite IH.
Qed.

Lemma check_complete_Some amb (a : list Reading) :
  check_complete amb (Some <$> a) = Return (complete_ok amb a).
Proof. unfold check_complete. by rewrite !chosen_values_Some. Qed.

Lemma py_setitem_lt {A} (l : list A) i x :
  i < length l → py_setitem l i x = Return (<[i:=x]> l).
Proof. intros Hi. unfold py_setitem. by rewrite bool_decide_true. Qed.

Section search.
Context (n : nat) (possibilities : list (list Reading)).
Context (amb exc : gmap string (list (list N))).
Hypothesis Hposs : length possibilities = n.

Local Abbreviation post := (backtrack_post n possibilities amb exc).
Local Abbreviation finishes := (completes possibilities amb exc).

Lemma take_chosen_step (chosen : list (option Reading)) i pre p :
  length chosen = n → i < n → take i chosen = Some <$> pre →
  take (S i) (<[i:=Some p]> chosen) = Some <$> (pre ++ [p]).
Proof.
  intros Hlen Hi Hpre.
  rewrite (take_S_r _ _ (Some p)) by (apply list_lookup_insert_eq; lia).
  rewrite take_insert_ge by lia. by rewrite Hpre, fmap_app.
Qed.

Lemma take_chosen_back (chosen : list (option Reading)) i pre p :
  length pre = i → take (S i) chosen = Some <$> (pre ++ [p]) →
  take i chosen = Some <$> pre.
Proof.
  intros Hlen Hpre. apply (f_equal (take i)) in Hpre.
  rewrite take_take, fmap_app in Hpre. replace (i `min` S i) with i in Hpre by lia.
  rewrite Hpre. rewrite take_app_length'; [done|]. by rewrite length_fmap.
Qed.

Lemma try_each_spec descend i pre ps (chosen : list (option Reading)) :
  i < n → length pre = i →
  (∀ p chosen, length chosen = n → take (S i) chosen = Some <$> (pre ++ [p]) →
               post (S i) (pre ++ [p]) (descend chosen)) →
  length chosen = n → take i chosen = Some <$> pre →
  ∃ b chosen',
    try_each exc descend i ps chosen = Return (b, chosen')
    ∧ length chosen' = n
    ∧ take i chosen' = Some <$> pre
    ∧ (b = true ↔ ∃ p suf, p ∈ ps ∧ excluded exc p = false
                          ∧ finishes (S i) (pre ++ [p]) suf).
Proof.
  intros Hi Hpre Hdesc. revert chosen.
  induction ps as [|p ps IH]; intros chosen Hlen Htake; simpl.
  - exists false, chosen. split_and!; [done..|]. split; [done|].
    intros (p & suf & Hin & _). by apply elem_of_nil in Hin.
  - destruct (excluded exc p) eqn:Hex.
    + destruct (IH chosen Hlen Htake) as (b & chosen' & -> & Hl' & Ht' & Hb).
      exists b, chosen'. split_and!; [done..|]. rewrite Hb. split.
      * intros (q & suf & Hin & ?). exists q, suf. split; [by right|done].
      * intros (q & suf & [->|Hin]%elem_of_cons & Hq & ?); [congruence|eauto].
    + rewrite py_setitem_lt by lia. simpl.
      destruct (Hdesc p (<[i:=Some p]> chosen)) as (b & chosen2 & -> & Hl2 & Ht2 & Hb2).
      { by rewrite length_insert. }
      { by apply take_chosen_step. }
      simpl. destruct b.
      * exists true, chosen2. split_and!; [done..|by eapply take_chosen_back|].
        split; [intros _|done]. destruct Hb2 as [(suf & Hsuf) _]; [done|].
        exists p, suf. split_and!; [left|done..].
      * destruct (IH chosen2 Hl2) as (b & chosen' & -> & Hl' & Ht' & Hb).
        { by eapply take_chosen_back. }
        exists b, chosen'. split_and!; [done..|]. rewrite Hb. split.
        -- intros (q & suf & Hin & ?). exists q, suf. split; [by right|done].
        -- intros (q & suf & [->|Hin]%elem_of_cons & Hq & Hsuf); [|eauto].
           destruct Hb2 as [_ Hb2]. discriminate Hb2. eauto.
Qed.

Lemma completes_last pre suf : finishes n pre suf ↔ suf = [] ∧ complete_ok amb pre = true.
Proof.
  unfold completes. rewrite drop_ge by lia. split.
  - intros (->%Forall2_nil_inv_r & _ & Hc). by rewrite app_nil_r in Hc.
  - intros [-> Hc]. rewrite app_nil_r. split_and!; [constructor..|done].
Qed.

Lemma completes_step i ps pre suf :
  possibilities !! i = Some ps →
  finishes i pre suf ↔
  ∃ p suf', suf = p :: suf' ∧ p ∈ ps ∧ excluded exc p = false
            ∧ finishes (S i) (pre ++ [p]) suf'.
Proof.
  intros Hps. unfold completes. rewrite (drop_S _ _ _ Hps). split.
  - intros ((p & suf' & Hp & Hsuf' & ->)%Forall2_cons_inv_r & Hex & Hc).
    apply Forall_cons in Hex as [Hex Hex']. exists p, suf'.
    rewrite <-app_assoc. done.
  - intros (p & suf' & -> & Hp & Hex & Hsuf' & Hex' & Hc).
    rewrite <-app_assoc in Hc. split_and!; [by constructor..|done].
Qed.

Lemma backtrack_spec fuel i pre (chosen : list (option Reading)) :
  i ≤ n → n - i < fuel → length pre = i →
  length chosen = n → take i chosen = Some <$> pre →
  post i pre (backtrack n possibilities amb exc fuel i chosen).
Proof.
  revert i pre chosen. induction fuel as [|fuel IH]; intros i pre chosen Hi Hfuel Hpre Hlen Htake;
    [lia|]. simpl. case_bool_decide as Hin.
  - rewrite Hin in Hpre, Htake |- *. clear Hin Hi Hfuel i.
    rewrite take_ge in Htake by lia. rewrite Htake, check_complete_Some. simpl.
    exists (complete_ok amb pre), (Some <$> pre). split_and!;
      [done| |by rewrite take_ge by (rewrite length_fmap; lia)|].
    + by rewrite <-Htake.
    + split.
      * intros Hc. exists []. by apply completes_last.
      * intros (suf & [_ Hc]%completes_last). done.
  - destruct (lookup_lt_is_Some_2 possibilities i) as [ps Hps]; [lia|]. rewrite Hps.
    rewrite Nat.add_1_r.
    destruct (try_each_spec (backtrack n possibilities amb exc fuel (S i)) i pre ps chosen)
      as (b & chosen' & Heq & Hl' & Ht' & Hb); [lia|done| |done..|].
    { intros p chosen1 Hl1 Ht1. apply IH; [lia|lia| |done..].
      rewrite length_app. simpl. lia. }
    exists b, chosen'. split_and!; [done..|]. rewrite Hb. split.
    + intros (p & suf & ? & ? & ?). exists (p :: suf). apply (completes_step i ps); eauto 10.
    + intros (suf & (p & suf' & -> & ? & ? & ?)%(completes_step i ps)); eauto.
Qed.

Lemma backtrack_top fuel :
  n < fuel →
  post 0 [] (backtrack n possibilities amb exc fuel 0 (replicate n None)).
Proof.
  intros Hfuel. apply backtrack_spec; [lia|lia|done|by rewrite length_replicate|done].
Qed.
End search.

(** ** The candidate lists *)

Section candidates.
Context `{PyEnv}.
Implicit Types (sp : gmap Z (gmap string (list N))) (word : list N).

Lemma elem_of_filter_position sp i ch p :
  p ∈ filter_position sp i (readings ch) ↔ candidate_reading sp i ch p.
Proof.
  unfold filter_position, candidate_reading.
  assert ((∃ rs, get_pronunciations ch = Return rs ∧ p ∈ rs) ↔ p ∈ readings ch) as ->.
  { rewrite get_pronunciations_spec. split; [by intros (rs & [= <-] & ?)|eauto]. }
  destruct (sp !! Z.of_nat i) as [req|].
  - rewrite elem_of_List_filter, reading_ok_spec. split.
    + intros [? ?]. split; [done|]. by intros ? [= <-].
    + intros [? Hreq]. eauto.
  - split; [|by intros [? _]]. intros ?. split; [done|]. by intros ? [=].
Qed.

Lemma length_candidates sp i word : length (candidates sp i word) = length word.
Proof. revert i. induction word as [|ch word IH]; intros i; simpl; [done|]. by rewrite IH. Qed.

Lemma lookup_candidates sp i word j :
  candidates sp i word !! j = (λ ch, filter_position sp (i + j) (readings ch)) <$> word !! j.
Proof.
  revert i j. induction word as [|ch word IH]; intros i [|j]; simpl; [done..| |].
  - by rewrite Nat.add_0_r.
  - rewrite IH. by replace (S i + j) with (i + S j) by lia.
Qed.

Lemma collect_possibilities_spec sp i word acc :
  collect_possibilities sp i word acc =
  Return (if decide ([] ∈ candidates sp i word) then None
          else Some (acc ++ candidates sp i word)).
Proof.
  revert i acc. induction word as [|ch word IH]; intros i acc;
    cbn [collect_possibilities candidates].
  - rewrite decide_False by apply not_elem_of_nil. by rewrite app_nil_r.
  - rewrite get_pronunciations_spec. cbn [mbind res_bind]. case_bool_decide as Hempty.
    + rewrite Hempty. rewrite decide_True by left. done.
    + rewrite IH. destruct (decide ([] ∈ candidates sp (S i) word)) as [Hin|Hin].
      * rewrite decide_True by by right. done.
      * rewrite decide_False; [by rewrite <-app_assoc|].
        intros [?|?]%elem_of_cons; [congruence|done].
Qed.

Lemma empty_candidates sp word :
  [] ∈ candidates sp 0 word ↔
  ∃ i ch, word !! i = Some ch ∧ ∀ p, ¬ candidate_reading sp i ch p.
Proof.
  rewrite list_elem_of_lookup. split.
  - intros (i & Hi). rewrite lookup_candidates in Hi.
    destruct (word !! i) as [ch|] eqn:Hch; [|done]. injection Hi as Hi.
    exists i, ch. split; [done|]. intros p Hp%elem_of_filter_position.
    simpl in Hp. rewrite Hi in Hp. by apply elem_of_nil in Hp.
  - intros (i & ch & Hch & Hno). exists i. rewrite lookup_candidates, Hch. simpl.
    f_equal. destruct (filter_position sp i (readings ch)) as [|p l] eqn:Hl; [done|].
    destruct (Hno p). apply elem_of_filter_position. rewrite Hl. left.
Qed.

Lemma completes_candidates sp amb exc word a :
  completes (candidates sp 0 word) amb exc 0 [] a ↔
  satisfying_assignment word sp amb exc a.
Proof.
  unfold completes, satisfying_assignment. rewrite drop_0, app_nil_l.
  rewrite Forall2_same_length_lookup, length_candidates, Forall_lookup, complete_ok_spec.
  split.
  - intros ((Hlen & Hcand) & Hex & Hw). split_and!; [done| |done].
    intros i ch p Hch Hp. split.
    + apply elem_of_filter_position. apply (Hcand i p); [done|].
      by rewrite lookup_candidates, Hch.
    + apply excluded_false. by apply (Hex i).
  - intros (Hlen & Hall & Hw). split_and!; [done| | |done].
    + intros i p ps Hp Hps. rewrite lookup_candidates in Hps.
      destruct (word !! i) as [ch|] eqn:Hch; [|done]. injection Hps as <-.
      apply elem_of_filter_position. by apply Hall.
    + intros i p Hp. apply excluded_false.
      destruct (lookup_lt_is_Some_2 word i) as [ch Hch].
      { rewrite <-Hlen. by eapply lookup_lt_Some. }
      by apply (Hall i ch p).
Qed.

(** What [phonetic_search] returns, in terms of the specification. *)
Lemma phonetic_search_spec word sp amb exc :
  ∃ r, phonetic_search word sp amb exc = Return r
    ∧ (r = NoCandidates ↔
         ∃ i ch, word !! i = Some ch ∧ ∀ p, ¬ candidate_reading sp i ch p)
    ∧ (r = Found ↔ ∃ a, satisfying_assignment word sp amb exc a).
Proof.
  unfold phonetic_search. rewrite collect_possibilities_spec. cbn [mbind res_bind].
  pose proof (empty_candidates sp word) as Hemp.
  destruct (decide ([] ∈ candidates sp 0 word)) as [Hempty|Hfull].
  - exists NoCandidates. split_and!; [done|by rewrite <-Hemp|]. split; [done|].
    intros (a & (Hlen & Hcand)%completes_candidates).
    apply list_elem_of_lookup in Hempty as [i Hi].
    rewrite drop_0 in Hlen.
    destruct (Forall2_lookup_r _ _ _ _ _ Hlen Hi) as (p & _ & Hp).
    by apply elem_of_nil in Hp.
  - rewrite app_nil_l.
    destruct (backtrack_top (length word) (candidates sp 0 word) amb exc
                (length_candidates sp 0 word) (S (length word)))
      as (b & chosen' & -> & _ & _ & Hb); [lia|].
    simpl. exists (if b then Found else Exhausted). split_and!; [done| |].
    + rewrite <-Hemp. split; [by destruct b|done].
    + setoid_rewrite <-completes_candidates. rewrite <-Hb. by destruct b.
Qed.
End candidates.

(** ** [word_matches] as a whole *)

Lemma py_index_in_range (word : list N) k :
  (- Z.of_nat (length word) ≤ k < Z.of_nat (length word))%Z →
  ∃ c, py_index word k = Return c.
Proof.
  intros Hk. unfold py_index. cbv zeta.
  set (j := if bool_decide (k < 0)%Z then (Z.of_nat (length word) + k)%Z else k).
  assert (0 ≤ j < Z.of_nat (length word))%Z as Hj.
  { unfold j. case_bool_decide; lia. }
  rewrite bool_decide_true by done.
  destruct (lookup_lt_is_Some_2 word (Z.to_nat j)) as [c ->]; [lia|]. eauto.
Qed.

(** Outside that range the test [word[i] != char] raises, whatever the
    other constraints are. *)
Lemma exact_key_out_of_range :
  word_matches (H:=toy_env) [0x91cd%N] ∅ ∅ ∅ [(1%Z, 0x91cd%N)] [] [] = Raise IndexError.
Proof. reflexivity. Qed.

Lemma check_exact_total (word : list N) ex :
  exact_in_range word ex → ∃ ok, check_exact word ex = Return ok.
Proof.
  induction ex as [|[k c] ex IH]; intros Hr; simpl; [eauto|].
  destruct (py_index_in_range word k) as [c' ->]; [apply (Hr k c); left|]. simpl.
  case_bool_decide; [eauto|]. apply IH. intros k' c'' Hin. apply (Hr k' c''). by right.
Qed.

Section word_matches.
Context `{PyEnv}.
Implicit Types (sp : gmap Z (gmap string (list N))) (amb exc : gmap string (list (list N))).
Implicit Types (word ac nc : list N) (ex : list (Z * N)).

Lemma word_matches_true word sp amb exc ex ac nc :
  word_matches word sp amb exc ex ac nc = Return true ↔
    check_exact word ex = Return true
    ∧ (∃ a, satisfying_assignment word sp amb exc a)
    ∧ (∀ c, c ∈ ac → c ∈ word)
    ∧ (∀ c, c ∈ nc → c ∉ word).
Proof.
  unfold word_matches.
  destruct (phonetic_search_spec word sp amb exc) as (r & -> & _ & Hfound).
  rewrite <-Hfound.
  assert (forallb (λ char, bool_decide (char ∈ word)) ac = true ↔ ∀ c, c ∈ ac → c ∈ word) as Hac.
  { rewrite forallb_forall. setoid_rewrite bool_decide_eq_true.
    by setoid_rewrite <-list_elem_of_In. }
  assert (existsb (λ char, bool_decide (char ∈ word)) nc = false ↔ ∀ c, c ∈ nc → c ∉ word) as Hnc.
  { rewrite <-not_true_iff_false, existsb_exists. setoid_rewrite bool_decide_eq_true.
    setoid_rewrite <-list_elem_of_In. split.
    - intros Hn c Hc Hw. apply Hn. eauto.
    - intros Hall (c & Hc & Hw). by apply (Hall c). }
  rewrite <-Hac, <-Hnc.
  destruct (check_exact word ex) as [[]| |]; simpl; [|intuition congruence..].
  destruct r; simpl; [intuition congruence..|].
  destruct (forallb _ ac); simpl; [|intuition congruence].
  destruct (existsb _ nc); simpl; intuition congruence.
Qed.

Lemma word_matches_total word sp amb exc ex ac nc :
  exact_in_range word ex → ∃ b, word_matches word sp amb exc ex ac nc = Return b.
Proof.
  intros [ok Hok]%check_exact_total. unfold word_matches. rewrite Hok. simpl.
  destruct ok; simpl; [|eauto].
  destruct (phonetic_search_spec word sp amb exc) as (r & -> & _). simpl.
  destruct r; [eauto..|].
  destruct (forallb _ ac); simpl; [|eauto]. destruct (existsb _ nc); simpl; eauto.
Qed.

End word_matches.

Lemma py_index_Raise (word : list N) k e :
  py_index word k = Raise e ↔
  e = IndexError ∧ ¬ (- Z.of_nat (length word) ≤ k < Z.of_nat (length word))%Z.
Proof.
  split.
  - intros Hr. destruct (decide (- Z.of_nat (length word) ≤ k < Z.of_nat (length word))%Z)
      as [Hin|Hout].
    + destruct (py_index_in_range word k Hin) as [c Hc]. congruence.
    + split; [|done]. unfold py_index in Hr. cbv zeta in Hr.
      case_bool_decide; [|congruence].
      destruct (word !! _); congruence.
  - intros [-> Hout]. unfold py_index. cbv zeta.
    rewrite bool_decide_false; [done|]. case_bool_decide; lia.
Qed.

Lemma py_index_fuel (word : list N) k : py_index word k ≠ OutOfFuel.
Proof.
  unfold py_index. cbv zeta. case_bool_decide; [|done]. by destruct (word !! _).
Qed.

Lemma py_index_Return (word : list N) k c :
  py_index word k = Return c ↔
  ∃ j, word !! j = Some c ∧ (k = Z.of_nat j ∨ k = (Z.of_nat j - Z.of_nat (length word))%Z).
Proof.
  unfold py_index. cbv zeta. split.
  - case_bool_decide as Hr; [|done].
    destruct (word !! Z.to_nat _) as [c'|] eqn:Hl; [|done]. intros [= ->].
    eexists. split; [exact Hl|]. case_bool_decide; lia.
  - intros (j & Hj & Hk). pose proof (lookup_lt_Some _ _ _ Hj) as Hlt.
    assert ((if bool_decide (k < 0)%Z then (Z.of_nat (length word) + k)%Z else k) = Z.of_nat j)
      as ->.
    { case_bool_decide; lia. }
    rewrite bool_decide_true by lia. by rewrite Nat2Z.id, Hj.
Qed.

Lemma check_exact_Raise (word : list N) ex e :
  check_exact word ex = Raise e ↔
  e = IndexError
  ∧ ∃ before k c after,
      ex = before ++ (k, c) :: after
      ∧ ¬ (- Z.of_nat (length word) ≤ k < Z.of_nat (length word))%Z
      ∧ ∀ k' c', (k', c') ∈ before → py_index word k' = Return c'.
Proof.
  induction ex as [|[k c] ex IH]; simpl.
  - split; [done|]. intros (_ & before & k & c & after & Hnil & _). by destruct before.
  - destruct (py_index word k) as [c'| |] eqn:Hk; simpl.
    + case_bool_decide as Hc.
      * split; [done|]. intros (_ & before & k1 & c1 & after & Heq & Hout & Hall).
        destruct before as [|[k0 c0] before]; simplify_eq/=.
        -- pose proof (proj2 (py_index_Raise word _ IndexError) (conj eq_refl Hout)).
           congruence.
        -- specialize (Hall k0 c0). rewrite Hk in Hall. destruct Hc.
           by injection Hall; [|left].
      * subst c'. rewrite IH. split.
        -- intros (-> & before & k1 & c1 & after & -> & Hout & Hall). split; [done|].
           exists ((k, c) :: before), k1, c1, after. split_and!; [done..|].
           intros k' c' [[= -> ->]|Hin]%elem_of_cons; auto.
        -- intros (-> & before & k1 & c1 & after & Heq & Hout & Hall). split; [done|].
           destruct before as [|[k0 c0] before]; simplify_eq/=.
           ++ pose proof (proj2 (py_index_Raise word _ IndexError) (conj eq_refl Hout)).
              congruence.
           ++ exists before, k1, c1, after. split_and!; [done..|].
              intros k' c' Hin. apply Hall. by right.
    + apply py_index_Raise in Hk as [-> Hout]. split.
      * intros [= <-]. split; [done|]. exists [], k, c, ex. split_and!; [done..|].
        intros k' c' Hin. by apply elem_of_nil in Hin.
      * by intros [-> _].
    + by apply py_index_fuel in Hk.
Qed.

Lemma check_exact_fuel (word : list N) ex : check_exact word ex ≠ OutOfFuel.
Proof.
  induction ex as [|[k c] ex IH]; simpl; [done|].
  destruct (py_index word k) eqn:Hk; simpl; [by case_bool_decide|done|].
  by apply py_index_fuel in Hk.
Qed.

Lemma word_matches_check_exact `{PyEnv} (word : list N) sp amb exc ex ac nc :
  match check_exact word ex with
  | Return _ => ∃ b, word_matches word sp amb exc ex ac nc = Return b
  | Raise e => word_matches word sp amb exc ex ac nc = Raise e
  | OutOfFuel => False
  end.
Proof.
  pose proof (check_exact_fuel word ex) as Hfuel. unfold word_matches.
  destruct (check_exact word ex) as [ok| |]; simpl; [|done..].
  destruct ok; simpl; [|eauto].
  destruct (phonetic_search_spec word sp amb exc) as (r & -> & _). simpl.
  destruct r; [eauto..|].
  destruct (forallb _ ac); simpl; [|eauto]. destruct (existsb _ nc); simpl; eauto.
Qed.



(** ** Termination of the search *)

Lemma try_each_fuel exc descend i ps (chosen : list (option Reading)) :
  (∀ chosen, descend chosen ≠ OutOfFuel) →
  try_each exc descend i ps chosen ≠ OutOfFuel.
Proof.
  intros Hdesc. revert chosen. induction ps as [|p ps IH]; intros chosen; simpl; [done|].
  destruct (excluded exc p); [apply IH|].
  destruct (py_setitem chosen i (Some p)) as [chosen1| |]eqn:Hset; simpl; [|done|].
  - specialize (Hdesc chosen1).
    destruct (descend chosen1) as [[[] chosen2]| |]; simpl; [done|apply IH|done..].
  - unfold py_setitem in Hset. by case_bool_decide.
Qed.

Lemma backtrack_fuel n possibilities amb exc fuel i (chosen : list (option Reading)) :
  i ≤ n → n - i < fuel →
  backtrack n possibilities amb exc fuel i chosen ≠ OutOfFuel.
Proof.
  revert i chosen. induction fuel as [|fuel IH]; intros i chosen Hi Hfuel; [lia|].
  simpl. case_bool_decide as Hin.
  - unfold check_complete.
    assert (∀ proj, chosen_values proj chosen ≠ OutOfFuel) as Hv.
    { intros proj. induction chosen as [|[p|] chosen IHc]; simpl; [done| |done].
      by destruct (chosen_values proj chosen). }
    pose proof (Hv initial). pose proof (Hv final). pose proof (Hv tone).
    destruct (chosen_values initial chosen); simpl; [|done..].
    destruct (chosen_values final chosen); simpl; [|done..].
    by destruct (chosen_values tone chosen).
  - destruct (possibilities !! i); [|done].
    apply try_each_fuel. intros chosen1. apply IH; lia.
Qed.

Lemma positions_in_range (word : list N) ex :
  (∀ k c, (k, c) ∈ ex → (0 ≤ k < Z.of_nat (length word))%Z) → exact_in_range word ex.
Proof. intros Hpos k c Hin. specialize (Hpos k c Hin). lia. Qed.

(** ** The claims about the matcher *)


(** C1. When every position has a candidate reading, the phonetic part of
    [word_matches] ends in [Found] or [Exhausted], and it ends in [Found]
    exactly when a satisfying assignment exists; [word_matches] then
    returns [True] exactly when, in addition, the character checks pass.
    After a reading whose branch failed, the loop goes on with the next
    reading.  A character whose readings are zh-ong-4 and ch-ong-2 is
    accepted when the only constraint is the must-exist tone 2. *)
Theorem existential_search :
  (∀ (E : PyEnv) (word : list N) sp amb exc,
     (∀ i ch, word !! i = Some ch → ∃ p, candidate_reading sp i ch p) →
     (phonetic_search word sp amb exc = Return Found
      ∨ phonetic_search word sp amb exc = Return Exhausted)
     ∧ (phonetic_search word sp amb exc = Return Found
        ↔ ∃ a, satisfying_assignment word sp amb exc a)
     ∧ (∀ ex ac nc,
          word_matches word sp amb exc ex ac nc = Return true ↔
          check_exact word ex = Return true
          ∧ phonetic_search word sp amb exc = Return Found
          ∧ (∀ c, c ∈ ac → c ∈ word) ∧ (∀ c, c ∈ nc → c ∉ word)))
  ∧ (∀ exc descend i p ps (chosen chosen1 chosen2 : list (option Reading)),
       excluded exc p = false →
       py_setitem chosen i (Some p) = Return chosen1 →
       descend chosen1 = Return (false, chosen2) →
       try_each exc descend i (p :: ps) chosen = try_each exc descend i ps chosen2)
  ∧ (∀ (E : PyEnv) (ch : N),
       (∀ r, (∃ rs, get_pronunciations ch = Return rs ∧ r ∈ rs)
             ↔ r = zh_ong_4 ∨ r = ch_ong_2) →
       word_matches [ch] ∅ {[ "tone"%string := [lit "2"] ]} ∅ [] [] [] = Return true).
Proof.
  split_and!.
  - intros E word sp amb exc Hcand.
    destruct (phonetic_search_spec word sp amb exc) as (r & Hr & Hnone & Hfound).
    assert (r ≠ NoCandidates) as Hr'.
    { intros (i & ch & Hch & Hno)%Hnone. destruct (Hcand i ch Hch) as [p Hp].
      by apply (Hno p). }
    rewrite Hr. split_and!.
    + destruct r; [done|by right|by left].
    + rewrite <-Hfound. split; [by intros [= ->]|by intros ->].
    + intros ex ac nc. rewrite word_matches_true, <-Hfound.
      split; intros (? & Hf & ?); (split; [done|split; [|done]]); congruence.
  - intros exc descend i p ps chosen chosen1 chosen2 Hex Hset Hdesc.
    simpl. by rewrite Hex, Hset; simpl; rewrite Hdesc.
  - intros E ch Hrs. apply word_matches_true. split_and!; [done| |by intros c ?%elem_of_nil..].
    exists [ch_ong_2]. split_and!; [done| |].
    + intros [|i] c p [= <-] [= <-]. split; [split|].
      * apply Hrs. by right.
      * intros req. by rewrite lookup_empty.
      * intros (field & values & v & Hl & _). by rewrite lookup_empty in Hl.
    + intros field values v _ Hl Hv.
      apply lookup_singleton_Some in Hl as [<- <-].
      apply list_elem_of_singleton in Hv as ->. exists ch_ong_2. split; [left|done].
Qed.

Lemma toy_readings_zhong (r : Reading) :
  (∃ rs, get_pronunciations (H:=toy_env) 0x91cd%N = Return rs ∧ r ∈ rs)
  ↔ r = zh_ong_4 ∨ r = ch_ong_2.
Proof.
  change (get_pronunciations (H:=toy_env) 0x91cd%N) with (Return [zh_ong_4; ch_ong_2]).
  split.
  - intros (rs & [= <-] & Hin). rewrite !elem_of_cons, elem_of_nil in Hin. tauto.
  - intros Hr. exists [zh_ong_4; ch_ong_2]. split; [done|].
    rewrite !elem_of_cons. tauto.
Qed.

Lemma existential_search_witness :
  (∀ i ch, [0x91cd%N] !! i = Some ch → ∃ p, candidate_reading (H:=toy_env) ∅ i ch p)
  ∧ (phonetic_search (H:=toy_env) [0x91cd%N] ∅ {[ "tone"%string := [lit "2"] ]} ∅
       = Return Found
     ↔ ∃ a, satisfying_assignment (H:=toy_env) [0x91cd%N] ∅
              {[ "tone"%string := [lit "2"] ]} ∅ a)
  ∧ word_matches (H:=toy_env) [0x91cd%N] ∅ {[ "tone"%string := [lit "2"] ]} ∅ [] [] []
    = Return true.
Proof.
  assert (∀ i ch, [0x91cd%N] !! i = Some ch → ∃ p, candidate_reading (H:=toy_env) ∅ i ch p)
    as Hcand.
  { intros [|i] ch Hch; [|done]. injection Hch as <-. exists zh_ong_4. split.
    - apply toy_readings_zhong. by left.
    - intros req Hreq. by rewrite lookup_empty in Hreq. }
  split; [exact Hcand|]. split.
  - exact (proj1 (proj2 (proj1 existential_search toy_env _ _ _ _ Hcand))).
  - exact (proj2 (proj2 existential_search) toy_env _ toy_readings_zhong).
Defined.







(** C10. [backtrack(i)] recurses to depth at most [n - i + 1]: with that
    much fuel it never runs out, for any list of candidate lists; started
    at 0 it returns.  [word_matches] returns a Boolean whenever the
    exact-character positions are indices of the word. *)
Theorem search_terminates :
  (∀ n possibilities amb exc fuel i (chosen : list (option Reading)),
     i ≤ n → n - i < fuel →
     backtrack n possibilities amb exc fuel i chosen ≠ OutOfFuel)
  ∧ (∀ n possibilities amb exc fuel,
       length possibilities = n → n < fuel →
       ∃ b chosen',
         backtrack n possibilities amb exc fuel 0 (replicate n None) = Return (b, chosen')
         ∧ (b = true ↔ ∃ a, completes possibilities amb exc 0 [] a))
  ∧ (∀ (E : PyEnv) (word : list N) sp amb exc ex ac nc,
       (∀ k c, (k, c) ∈ ex → (0 ≤ k < Z.of_nat (length word))%Z) →
       ∃ b, word_matches word sp amb exc ex ac nc = Return b).
Proof.
  split_and!.
  - apply backtrack_fuel.
  - intros n possibilities amb exc fuel Hlen Hfuel.
    destruct (backtrack_top n possibilities amb exc Hlen fuel Hfuel)
      as (b & chosen' & ? & _ & _ & ?). eauto.
  - intros E word sp amb exc ex ac nc Hpos.
    by apply word_matches_total, positions_in_range.
Qed.

Lemma search_terminates_witness :
  backtrack 1 [[zh_ong_4; ch_ong_2]] {[ "tone"%string := [lit "2"] ]} ∅ 2 0 [None]
    ≠ OutOfFuel
  ∧ (∃ b chosen',
       backtrack 1 [[zh_ong_4; ch_ong_2]] {[ "tone"%string := [lit "2"] ]} ∅ 2 0
         (replicate 1 None) = Return (b, chosen')
       ∧ (b = true ↔ ∃ a, completes [[zh_ong_4; ch_ong_2]]
                            {[ "tone"%string := [lit "2"] ]} ∅ 0 [] a))
  ∧ ∃ b, word_matches (H:=toy_env) [0x91cd%N; 0x5e86%N] ∅ ∅ ∅
           [(1%Z, 0x5e86%N)] [] [] = Return b.
Proof.
  split_and!.
  - apply (proj1 search_terminates); lia.
  - apply (proj1 (proj2 search_terminates)); [done|lia].
  - apply (proj2 (proj2 search_terminates) toy_env).
    intros k c [= -> ->]%list_elem_of_singleton. simpl. lia.
Defined.

(** ** The filter *)

Lemma check_exact_true (word : list N) ex :
  check_exact word ex = Return true ↔ ∀ k c, (k, c) ∈ ex → py_index word k = Return c.
Proof.
  induction ex as [|[k c] ex IH]; simpl.
  - split; [|done]. intros _ k c Hin. by apply elem_of_nil in Hin.
  - destruct (py_index word k) as [c'| |] eqn:Hk; simpl.
    + case_bool_decide as Hc.
      * split; [done|]. intros Hall. specialize (Hall k c). rewrite Hk in Hall.
        destruct Hc. by injection Hall; [|left].
      * rewrite IH. subst c'. split.
        -- intros Hall k' c' [[= -> ->]|Hin]%elem_of_cons; auto.
        -- intros Hall k' c' Hin. apply Hall. by right.
    + split; [done|]. intros Hall. specialize (Hall k c). rewrite Hk in Hall.
      by discriminate Hall; left.
    + split; [done|]. intros Hall. specialize (Hall k c). rewrite Hk in Hall.
      by discriminate Hall; left.
Qed.

Lemma filter_filter_andb {A} (f g : A → bool) (l : list A) :
  List.filter g (List.filter f l) = List.filter (λ x, f x && g x) l.
Proof.
  induction l as [|x l IH]; simpl; [done|].
  destruct (f x); simpl; [|done]. destruct (g x); by rewrite IH.
Qed.

Lemma filter_sublist {A} (f : A → bool) (l : list A) : List.filter f l `sublist_of` l.
Proof.
  induction l as [|x l IH]; simpl; [done|].
  destruct (f x); [by apply sublist_skip|by apply sublist_cons].
Qed.

Lemma filter_sublist_mono {A} (f g : A → bool) (l : list A) :
  (∀ x, x ∈ l → f x = true → g x = true) →
  List.filter f l `sublist_of` List.filter g l.
Proof.
  induction l as [|x l IH]; intros Hfg; simpl; [done|].
  assert (List.filter f l `sublist_of` List.filter g l) as Hsub.
  { apply IH. intros y Hy. apply Hfg. by right. }
  destruct (f x) eqn:Hf.
  - rewrite (Hfg x) by (done || left). by apply sublist_skip.
  - destruct (g x); [by apply sublist_cons|done].
Qed.


Section filter.
Context `{PyEnv}.
Implicit Types (rq : Request) (words : list (list N * list N)).

Lemma match_loop_Return rq words acc l :
  match_loop rq words acc = Return l →
  l = acc ++ List.filter (λ e, bool_decide (matches rq e.1 = Return true)) words.
Proof.
  revert acc. induction words as [|[word t] words IH]; intros acc; simpl.
  - intros [= <-]. by rewrite app_nil_r.
  - destruct (matches rq word) as [[]| |]; simpl; [| |done..].
    + intros ->%IH. by rewrite <-app_assoc.
    + apply IH.
Qed.

Lemma match_loop_total rq words acc :
  (∀ e, e ∈ words → ∃ b, matches rq e.1 = Return b) →
  ∃ l, match_loop rq words acc = Return l.
Proof.
  revert acc. induction words as [|[word t] words IH]; intros acc Hall; simpl; [eauto|].
  destruct (Hall (word, t)) as [b Hb]; [left|]. simpl in Hb. rewrite Hb. simpl.
  apply IH. intros e He. apply Hall. by right.
Qed.

Lemma filter_words_Return rq words len l :
  filter_words words len rq = Return l → l = List.filter (accepts len rq) words.
Proof.
  unfold filter_words. intros ->%match_loop_Return. by rewrite filter_filter_andb.
Qed.

Lemma filter_words_total rq words len :
  (∀ k c, (k, c) ∈ exact_char_reqs rq → (- len ≤ k < len)%Z) →
  filter_words words len rq = Return (List.filter (accepts len rq) words).
Proof.
  intros Hpos. unfold filter_words.
  edestruct (match_loop_total rq) as [l Hl]; [|rewrite Hl; f_equal; by eapply filter_words_Return].
  intros [word t] [_ Hlen%bool_decide_eq_true]%elem_of_List_filter. simpl in *.
  apply word_matches_total. intros k c Hin. rewrite Hlen. by apply (Hpos k c).
Qed.



Lemma elem_of_accepted rq words len e :
  e ∈ List.filter (accepts len rq) words ↔
  e ∈ words ∧ Z.of_nat (length e.1) = len ∧ matches rq e.1 = Return true.
Proof.
  rewrite elem_of_List_filter. unfold accepts.
  by rewrite andb_true_iff, !bool_decide_eq_true.
Qed.
End filter.

Lemma dict_set_keys {V} (items : list (Z * V)) k v k' v' :
  (k', v') ∈ dict_set items k v → k' = k ∨ ∃ v'', (k', v'') ∈ items.
Proof.
  induction items as [|[k0 v0] items IH]; simpl.
  - intros [= -> ->]%list_elem_of_singleton. by left.
  - case_bool_decide as Hk.
    + intros [[= -> ->]|Hin]%elem_of_cons; [by left|]. right. exists v'. by right.
    + intros [[= -> ->]|Hin]%elem_of_cons.
      * right. exists v0. left.
      * destruct (IH Hin) as [->|[v'' ?]]; [by left|]. right. exists v''. by right.
Qed.

Lemma read_positions_keys `{PyEnv} i inputs sp ex k c :
  (k, c) ∈ (read_positions i inputs sp ex).2 →
  (∃ c', (k, c') ∈ ex) ∨ (Z.of_nat i ≤ k < Z.of_nat (i + length inputs))%Z.
Proof.
  revert i sp ex. induction inputs as [|inp inputs IH]; intros i sp ex; simpl.
  - intros Hin. left. eauto.
  - intros [(c' & Hc')|Hk]%IH; [|right; lia].
    destruct (py_strip (pos_exact inp)) as [|c0 rest]; [left; eauto|].
    apply dict_set_keys in Hc' as [->|?]; [right; lia|by left].
Qed.

Lemma build_request_keys `{PyEnv} form k c :
  (k, c) ∈ exact_char_reqs (build_request form) →
  (0 ≤ k < Z.of_nat (length (position_inputs form)))%Z.
Proof.
  unfold build_request.
  destruct (read_positions 0 (position_inputs form) ∅ []) as [sp ex] eqn:Hread. simpl.
  intros Hin. destruct (read_positions_keys 0 (position_inputs form) ∅ [] k c) as [[c' Hc']|?].
  - by rewrite Hread.
  - by apply elem_of_nil in Hc'.
  - lia.
Qed.




(** ** Monotonicity *)

Section monotone.
Context `{PyEnv}.

Lemma satisfying_mono (word : list N) sp1 sp2 amb1 amb2 exc1 exc2 a :
  (∀ i ch p, candidate_reading sp2 i ch p → candidate_reading sp1 i ch p) →
  (∀ p, carries exc1 p → carries exc2 p) →
  (witnessed amb2 a → witnessed amb1 a) →
  satisfying_assignment word sp2 amb2 exc2 a →
  satisfying_assignment word sp1 amb1 exc1 a.
Proof.
  intros Hsp Hexc Hamb (Hlen & Hall & Hw). split_and!; [done| |auto].
  intros i ch p Hch Hp. destruct (Hall i ch p Hch Hp) as [Hc Hnc]. split; [auto|].
  intros Hc1. by apply Hnc, Hexc.
Qed.

Lemma candidate_add_field sp k field v i ch p :
  (∀ req want, sp !! k = Some req → req !! field = Some want → want = []) →
  candidate_reading (<[k := <[field := v]> (default ∅ (sp !! k))]> sp) i ch p →
  candidate_reading sp i ch p.
Proof.
  intros Hunset [Hrs Hpat]. split; [done|]. intros req Hreq.
  destruct (decide (k = Z.of_nat i)) as [->|Hk].
  - specialize (Hpat _ (lookup_insert_eq _ _ _)). rewrite Hreq in Hpat. simpl in Hpat.
    intros field' want w Hl Hne Hf. apply (Hpat field'); [|done..].
    destruct (decide (field = field')) as [<-|Hfield].
    + by destruct Hne, (Hunset req want).
    + by rewrite lookup_insert_ne.
  - apply Hpat. by rewrite lookup_insert_ne.
Qed.

Lemma lookup_add_value (reqs : gmap string (list (list N))) field values field' :
  default [] (<[field := values]> reqs !! field')
  = if decide (field = field') then values else default [] (reqs !! field').
Proof.
  destruct (decide (field = field')) as [<-|Hne].
  - by rewrite lookup_insert_eq.
  - by rewrite lookup_insert_ne.
Qed.

Lemma carries_default reqs p :
  carries reqs p ↔ ∃ field v, field_of field p = Some v ∧ v ∈ default [] (reqs !! field).
Proof.
  unfold carries. split.
  - intros (field & values & v & Hl & Hf & Hv). exists field, v. by rewrite Hl.
  - intros (field & v & Hf & Hv). destruct (reqs !! field) as [values|] eqn:Hl.
    + by exists field, values, v.
    + by apply elem_of_nil in Hv.
Qed.

Lemma witnessed_default reqs a :
  witnessed reqs a ↔
  ∀ field v, is_field field → v ∈ default [] (reqs !! field) →
             ∃ p, p ∈ a ∧ field_of field p = Some v.
Proof.
  unfold witnessed. split.
  - intros Hw field v Hfield Hv. destruct (reqs !! field) as [values|] eqn:Hl.
    + by apply (Hw field values).
    + by apply elem_of_nil in Hv.
  - intros Hw field values v Hfield Hl Hv. apply Hw; [done|]. by rewrite Hl.
Qed.

Lemma carries_subset reqs1 reqs2 p :
  (∀ field v, v ∈ default [] (reqs1 !! field) → v ∈ default [] (reqs2 !! field)) →
  carries reqs1 p → carries reqs2 p.
Proof.
  rewrite !carries_default. intros Hsub (field & v & Hf & Hv). eauto.
Qed.

Lemma witnessed_subset reqs1 reqs2 a :
  (∀ field v, v ∈ default [] (reqs1 !! field) → v ∈ default [] (reqs2 !! field)) →
  witnessed reqs2 a → witnessed reqs1 a.
Proof.
  rewrite !witnessed_default. intros Hsub Hw field v Hfield Hv. eauto.
Qed.

Lemma add_value_subset (reqs : gmap string (list (list N))) field v values :
  (∀ x, x ∈ values ↔ x = v ∨ x ∈ default [] (reqs !! field)) →
  ∀ field' x, x ∈ default [] (reqs !! field') →
              x ∈ default [] (<[field := values]> reqs !! field').
Proof.
  intros Hvalues field' x Hx. rewrite lookup_add_value.
  destruct (decide (field = field')) as [<-|]; [|done]. apply Hvalues. by right.
Qed.

Lemma matches_mono R1 R2 (word : list N) :
  adds_constraint R1 R2 →
  matches R2 word = Return true → matches R1 word = Return true.
Proof.
  unfold matches. intros Hadd. rewrite !word_matches_true.
  destruct Hadd as [k field v Hunset|field v values Hvalues|field v values Hvalues
                   |k c before after Hitems|c chars Hchars|c chars Hchars]; simpl;
    intros (Hex & [a Ha] & Hac & Hnc).
  - split_and!; [done| |done..]. exists a. revert Ha. apply satisfying_mono; [|done..].
    intros i ch p. by apply candidate_add_field.
  - split_and!; [done| |done..]. exists a. revert Ha. apply satisfying_mono; [done..|].
    apply witnessed_subset. by eapply add_value_subset.
  - split_and!; [done| |done..]. exists a. revert Ha. apply satisfying_mono; [done| |done].
    intros p. apply carries_subset. by eapply add_value_subset.
  - split_and!; [|eauto|done..]. rewrite Hitems. rewrite check_exact_true in Hex |- *.
    intros k' c' Hin. apply Hex. rewrite elem_of_app, elem_of_cons.
    apply elem_of_app in Hin. tauto.
  - split_and!; [done|eauto| |done]. intros x Hx. apply Hac, Hchars. by right.
  - split_and!; [done|eauto|done|]. intros x Hx. apply Hnc, Hchars. by right.
Qed.
End monotone.

(** C4. If [R2] is [R1] plus one constraint (a positional field that was
    not set, a must-exist value, a must-exclude value, an exact character,
    a must-contain character or a must-exclude character), every word the
    matcher accepts under [R2] it accepts under [R1]; and for the same word
    list and target length, every entry the filter returns under [R2] is
    an entry of the input accepted under [R1], and what it returns under
    [R2] is a sublist of what it returns under [R1]. *)
Theorem monotonicity (E : PyEnv) (R1 R2 : Request) :
  adds_constraint R1 R2 →
  (∀ word, matches R2 word = Return true → matches R1 word = Return true)
  ∧ (∀ (words : list (list N * list N)) len l2,
       filter_words words len R2 = Return l2 →
       (∀ e, e ∈ l2 → e ∈ words ∧ Z.of_nat (length e.1) = len
                      ∧ matches R1 e.1 = Return true)
       ∧ (∀ l1, filter_words words len R1 = Return l1 → l2 `sublist_of` l1)).
Proof.
  intros Hadd. split; [intros word; by apply matches_mono|].
  intros words len l2 ->%filter_words_Return. split.
  - intros e (Hin & Hlen & Hm)%elem_of_accepted. split_and!; [done..|].
    by apply (matches_mono R1 R2).
  - intros l1 ->%filter_words_Return. apply filter_sublist_mono.
    intros e _. unfold accepts. rewrite !andb_true_iff, !bool_decide_eq_true.
    intros [? ?]. split; [done|]. by apply (matches_mono R1 R2).
Qed.


Lemma monotonicity_witness :
  adds_constraint tone4_at_0 tone4_q
  ∧ matches (H:=toy_env) tone4_q chongqing.1 = Return true
  ∧ matches (H:=toy_env) tone4_at_0 chongqing.1 = Return true.
Proof.
  assert (adds_constraint tone4_at_0 tone4_q) as Hadd.
  { apply (add_must_exist tone4_at_0 "initial" (lit "q") [lit "q"]).
    intros x. rewrite list_elem_of_singleton. simpl. rewrite lookup_empty. simpl.
    rewrite elem_of_nil. tauto. }
  split; [exact Hadd|]. split; [reflexivity|].
  apply (proj1 (monotonicity toy_env tone4_at_0 tone4_q Hadd) chongqing.1). reflexivity.
Defined.

(** ** Independence of the order of sets and of the state of [chosen] *)

Lemma forallb_same_sets {A} (f : A → bool) (l k : list A) :
  same_sets l k → forallb f l = forallb f k.
Proof.
  intros Hlk. apply eq_true_iff_eq. rewrite !forallb_forall.
  setoid_rewrite <-list_elem_of_In. split; intros Hall x Hx; apply Hall, Hlk, Hx.
Qed.

Lemma existsb_same_sets {A} (f : A → bool) (l k : list A) :
  same_sets l k → existsb f l = existsb f k.
Proof.
  intros Hlk. apply eq_true_iff_eq. rewrite !existsb_exists.
  setoid_rewrite <-list_elem_of_In.
  split; intros (x & Hx & Hf); exists x; (split; [by apply Hlk|done]).
Qed.

Section two_interpreters.
Context (E1 E2 : PyEnv) (Hlib : same_library E1 E2).

Lemma candidate_reading_lib sp i ch p :
  candidate_reading (H:=E1) sp i ch p ↔ candidate_reading (H:=E2) sp i ch p.
Proof.
  unfold candidate_reading. f_equiv.
  rewrite !get_pronunciations_spec.
  assert (p ∈ readings (H:=E1) ch ↔ p ∈ readings (H:=E2) ch) as Hp.
  { rewrite !elem_of_readings. destruct Hlib as [Hpin _]. by rewrite Hpin. }
  split; intros (rs & [= <-] & Hin); eexists; (split; [done|]); by apply Hp.
Qed.

Lemma satisfying_lib (word : list N) sp amb1 amb2 exc1 exc2 a :
  (∀ field, same_sets (default [] (amb1 !! field)) (default [] (amb2 !! field))) →
  (∀ field, same_sets (default [] (exc1 !! field)) (default [] (exc2 !! field))) →
  satisfying_assignment (H:=E1) word sp amb1 exc1 a →
  satisfying_assignment (H:=E2) word sp amb2 exc2 a.
Proof.
  intros Hamb Hexc (Hlen & Hall & Hw). split_and!; [done| |].
  - intros i ch p Hch Hp. destruct (Hall i ch p Hch Hp) as [Hc Hnc]. split.
    + by apply candidate_reading_lib.
    + intros Hc2. apply Hnc. revert Hc2. apply carries_subset.
      intros field v. apply Hexc.
  - revert Hw. apply witnessed_subset. intros field v. apply Hamb.
Qed.
End two_interpreters.

Lemma same_library_sym E1 E2 : same_library E1 E2 → same_library E2 E1.
Proof. intros (? & ? & ?). split_and!; by intros. Qed.

Lemma same_sets_sym {A} (l k : list A) : same_sets l k → same_sets k l.
Proof. intros Hlk x. symmetry. apply Hlk. Qed.

Lemma phonetic_search_lib E1 E2 (word : list N) sp amb1 amb2 exc1 exc2 :
  same_library E1 E2 →
  (∀ field, same_sets (default [] (amb1 !! field)) (default [] (amb2 !! field))) →
  (∀ field, same_sets (default [] (exc1 !! field)) (default [] (exc2 !! field))) →
  phonetic_search (H:=E1) word sp amb1 exc1 = phonetic_search (H:=E2) word sp amb2 exc2.
Proof.
  intros Hlib Hamb Hexc.
  destruct (phonetic_search_spec (H:=E1) word sp amb1 exc1) as (r1 & -> & Hn1 & Hf1).
  destruct (phonetic_search_spec (H:=E2) word sp amb2 exc2) as (r2 & -> & Hn2 & Hf2).
  assert (r1 = NoCandidates ↔ r2 = NoCandidates) as Hn.
  { rewrite Hn1, Hn2. by setoid_rewrite (candidate_reading_lib E1 E2 Hlib). }
  assert (r1 = Found ↔ r2 = Found) as Hf.
  { rewrite Hf1, Hf2. split; intros [a Ha]; exists a.
    - by apply (satisfying_lib E1 E2 Hlib _ _ amb1 amb2 exc1 exc2).
    - apply (satisfying_lib E2 E1 (same_library_sym _ _ Hlib) _ _ amb2 amb1 exc2 exc1);
        [intros field; apply same_sets_sym, Hamb
        |intros field; apply same_sets_sym, Hexc|done]. }
  f_equal. destruct r1, r2; try done; intuition congruence.
Qed.

Lemma matches_lib E1 E2 R1 R2 (word : list N) :
  same_library E1 E2 → same_request R1 R2 →
  matches (H:=E1) R1 word = matches (H:=E2) R2 word.
Proof.
  intros Hlib (Hsp & Hamb & Hexc & Hex & Hac & Hnc). unfold matches, word_matches.
  rewrite <-Hex, <-Hsp.
  rewrite (phonetic_search_lib E1 E2 word _ _ (ambiguous_reqs R2) _ (exclude_reqs R2)) by done.
  by rewrite (forallb_same_sets _ _ _ Hac), (existsb_same_sets _ _ _ Hnc).
Qed.

Lemma match_loop_lib E1 E2 R1 R2 (words : list (list N * list N)) acc :
  same_library E1 E2 → same_request R1 R2 →
  match_loop (H:=E1) R1 words acc = match_loop (H:=E2) R2 words acc.
Proof.
  intros Hlib Hreq. revert acc. induction words as [|[word t] words IH]; intros acc; simpl;
    [done|].
  rewrite (matches_lib E1 E2 R1 R2) by done.
  destruct (matches R2 word) as [b| |]; simpl; [apply IH|done..].
Qed.

Lemma filter_words_lib E1 E2 R1 R2 (words : list (list N * list N)) len :
  same_library E1 E2 → same_request R1 R2 →
  filter_words (H:=E1) words len R1 = filter_words (H:=E2) words len R2.
Proof. intros. unfold filter_words. by apply match_loop_lib. Qed.

Lemma phonetic_reqs_lookup `{PyEnv} (i f t : list N) field :
  default [] (phonetic_reqs i f t !! field) =
  if decide (field = "initial"%string)
  then (if truthy (py_lower (py_strip i)) then parse_values (py_lower (py_strip i)) else [])
  else if decide (field = "final"%string)
  then (if truthy (py_lower (py_strip f)) then parse_values (py_lower (py_strip f)) else [])
  else if decide (field = "tone"%string)
  then (if truthy (py_strip t) then parse_values (py_strip t) else [])
  else [].
Proof.
  unfold phonetic_reqs.
  destruct (truthy (py_lower (py_strip i))), (truthy (py_lower (py_strip f))),
    (truthy (py_strip t)); repeat case_decide; simplify_map_eq; done.
Qed.

Section build_request_lib.
Context (E1 E2 : PyEnv) (Hlib : same_library E1 E2).

Lemma position_req_lib inp : position_req (H:=E1) inp = position_req (H:=E2) inp.
Proof.
  destruct Hlib as (_ & Hstrip & Hlower). unfold position_req.
  by rewrite !Hstrip, !Hlower.
Qed.

Lemma read_positions_lib i inputs sp ex :
  read_positions (H:=E1) i inputs sp ex = read_positions (H:=E2) i inputs sp ex.
Proof.
  revert i sp ex. induction inputs as [|inp inputs IH]; intros i sp ex; simpl; [done|].
  rewrite position_req_lib. destruct Hlib as (_ & Hstrip & _). rewrite Hstrip. apply IH.
Qed.

Lemma parse_values_lib text :
  same_sets (parse_values (H:=E1) text) (parse_values (H:=E2) text).
Proof.
  destruct Hlib as (_ & Hstrip & _). intros x. unfold parse_values.
  rewrite !py_set_elem.
  rewrite (filter_ext _ (λ x, truthy (@py_strip E2 x))) by (by intros; rewrite Hstrip).
  by rewrite (list_fmap_ext (@py_strip E1) (@py_strip E2)) by done.
Qed.

Lemma phonetic_reqs_lib i f t field :
  same_sets (default [] (phonetic_reqs (H:=E1) i f t !! field))
            (default [] (phonetic_reqs (H:=E2) i f t !! field)).
Proof.
  rewrite !phonetic_reqs_lookup. destruct Hlib as (_ & Hstrip & Hlower).
  rewrite !Hstrip, !Hlower.
  repeat case_decide; try done;
    match goal with |- context [truthy ?s] => destruct (truthy s) end;
    try done; apply parse_values_lib.
Qed.

Lemma char_set_lib entry : same_sets (char_set (H:=E1) entry) (char_set (H:=E2) entry).
Proof.
  destruct Hlib as (_ & Hstrip & _). unfold char_set. rewrite Hstrip.
  destruct (truthy _); [|done]. intros x. by rewrite !py_set_elem.
Qed.

Lemma build_request_lib form :
  same_request (build_request (H:=E1) form) (build_request (H:=E2) form).
Proof.
  unfold build_request. rewrite read_positions_lib.
  destruct (read_positions 0 (position_inputs form) ∅ []) as [sp ex].
  split_and!; simpl; [done| | |done| |];
    auto using phonetic_reqs_lib, char_set_lib.
Qed.
End build_request_lib.

Lemma match_loop_acc `{PyEnv} rq (words : list (list N * list N)) acc :
  match_loop rq words acc = l ← match_loop rq words []; Return (acc ++ l).
Proof.
  revert acc. induction words as [|[word t] words IH]; intros acc; simpl.
  - by rewrite app_nil_r.
  - destruct (matches rq word) as [b| |]; simpl; [|done..].
    rewrite IH. rewrite (IH (if b then _ else _)).
    destruct (match_loop rq words []) as [l| |]; simpl; [|done..].
    destruct b; simpl; [by rewrite <-app_assoc|done].
Qed.

Lemma match_loop_app `{PyEnv} rq (ws1 ws2 : list (list N * list N)) acc :
  match_loop rq (ws1 ++ ws2) acc = l ← match_loop rq ws1 acc; match_loop rq ws2 l.
Proof.
  revert acc. induction ws1 as [|[word t] ws1 IH]; intros acc; simpl; [done|].
  destruct (matches rq word) as [b| |]; simpl; [apply IH|done..].
Qed.

Lemma filter_words_app `{PyEnv} rq (ws1 ws2 : list (list N * list N)) len :
  filter_words (ws1 ++ ws2) len rq =
  l1 ← filter_words ws1 len rq; l2 ← filter_words ws2 len rq; Return (l1 ++ l2).
Proof.
  unfold filter_words. rewrite List.filter_app, match_loop_app.
  destruct (match_loop rq (List.filter _ ws1) []) as [l1| |]; simpl; [|done..].
  apply match_loop_acc.
Qed.

(** C9. The list the filter returns does not depend on the order in which
    the interpreter enumerates sets: two runs, under interpreters that
    agree on the library functions, on requests with the same dictionaries
    and the same sets, return the same result (or raise the same
    exception); so do two runs of [search_words] on the same form.  The
    outcome of [backtrack(0)] does not depend on what the list [chosen]
    holds when it starts, and the verdict on a word does not depend on the
    words matched before it. *)
Theorem determinism :
  (∀ (E1 E2 : PyEnv) R1 R2 (words : list (list N * list N)) len,
     same_library E1 E2 → same_request R1 R2 →
     filter_words (H:=E1) words len R1 = filter_words (H:=E2) words len R2)
  ∧ (∀ (E1 E2 : PyEnv) form (words : list (list N * list N)) len,
       same_library E1 E2 →
       search_words (H:=E1) form words len = search_words (H:=E2) form words len)
  ∧ (∀ n possibilities amb exc fuel (chosen1 chosen2 : list (option Reading)),
       length possibilities = n → n < fuel →
       length chosen1 = n → length chosen2 = n →
       fst <$> backtrack n possibilities amb exc fuel 0 chosen1
       = fst <$> backtrack n possibilities amb exc fuel 0 chosen2)
  ∧ (∀ (E : PyEnv) rq (ws1 ws2 : list (list N * list N)) len,
       filter_words (ws1 ++ ws2) len rq =
       l1 ← filter_words ws1 len rq; l2 ← filter_words ws2 len rq; Return (l1 ++ l2)).
Proof.
  split_and!.
  - intros. by apply filter_words_lib.
  - intros E1 E2 form words len Hlib. unfold search_words.
    apply filter_words_lib; [done|]. by apply build_request_lib.
  - intros n possibilities amb exc fuel chosen1 chosen2 Hlen Hfuel Hl1 Hl2.
    destruct (backtrack_spec n possibilities amb exc Hlen fuel 0 [] chosen1)
      as (b1 & c1 & -> & _ & _ & Hb1); [lia|lia|done..|].
    destruct (backtrack_spec n possibilities amb exc Hlen fuel 0 [] chosen2)
      as (b2 & c2 & -> & _ & _ & Hb2); [lia|lia|done..|].
    simpl. f_equal. apply eq_true_iff_eq. by rewrite Hb1, Hb2.
  - intros. apply filter_words_app.
Qed.

Lemma determinism_witness :
  same_library toy_env toy_env_rev
  ∧ search_words (H:=toy_env) two_row_form [chongqing; congrong] 2
    = search_words (H:=toy_env_rev) two_row_form [chongqing; congrong] 2
  ∧ fst <$> backtrack 1 [[zh_ong_4; ch_ong_2]] {[ "tone"%string := [lit "2"] ]} ∅ 2 0
              [None]
    = fst <$> backtrack 1 [[zh_ong_4; ch_ong_2]] {[ "tone"%string := [lit "2"] ]} ∅ 2 0
                [Some zh_ong_4].
Proof.
  assert (same_library toy_env toy_env_rev) as Hlib by done.
  split; [exact Hlib|]. split.
  - exact (proj1 (proj2 determinism) toy_env toy_env_rev two_row_form
             [chongqing; congrong] 2%Z Hlib).
  - apply (proj1 (proj2 (proj2 determinism))); [done|lia|done|done].
Defined.

(** ** Letter case *)

Section letter_case.
Context `{PyEnv}.

Lemma position_req_same inp1 inp2 :
  same_position inp1 inp2 → position_req inp1 = position_req inp2.
Proof. intros (Hi & Hf & Ht & _). unfold position_req. by rewrite Hi, Hf, Ht. Qed.

Lemma read_positions_same i inputs1 inputs2 sp ex :
  Forall2 same_position inputs1 inputs2 →
  read_positions i inputs1 sp ex = read_positions i inputs2 sp ex.
Proof.
  intros Hall. revert i sp ex. induction Hall as [|inp1 inp2 inputs1 inputs2 Hinp _ IH];
    intros i sp ex; simpl; [done|].
  rewrite (position_req_same inp1 inp2 Hinp).
  destruct Hinp as (_ & _ & _ & Hex). rewrite Hex. apply IH.
Qed.

Lemma phonetic_reqs_same i1 f1 t1 i2 f2 t2 :
  same_folded i1 i2 → same_folded f1 f2 → same_stripped t1 t2 →
  phonetic_reqs i1 f1 t1 = phonetic_reqs i2 f2 t2.
Proof. intros Hi Hf Ht. unfold phonetic_reqs. by rewrite Hi, Hf, Ht. Qed.

Lemma build_request_same f1 f2 : same_form f1 f2 → build_request f1 = build_request f2.
Proof.
  intros (Hpos & Hai & Haf & Hat & Hei & Hef & Het & Hac & Hnc). unfold build_request.
  rewrite (read_positions_same 0 _ _ ∅ [] Hpos).
  rewrite (phonetic_reqs_same _ _ _ _ _ _ Hai Haf Hat).
  rewrite (phonetic_reqs_same _ _ _ _ _ _ Hei Hef Het).
  unfold char_set. by rewrite Hac, Hnc.
Qed.
End letter_case.

(** C8, as the code has it.  [word_matches] compares the initial, final and
    tone values exactly: a reading passes a positional pattern when each
    set field equals the value of the reading, a must-exist value is
    witnessed and a must-exclude value carried only by a reading that
    holds that very value.  Letter case is removed before, by
    [search_words]: two forms whose initial and final texts agree after
    [strip().lower()], and whose other texts agree after [strip()], build
    the same request and give the same result. *)
Theorem case_handling :
  (∀ req p, reading_ok req p = true ↔ matches_pattern req p)
  ∧ (∀ amb a, complete_ok amb a = true ↔ witnessed amb a)
  ∧ (∀ exc p, excluded exc p = true ↔ carries exc p)
  ∧ (∀ (E : PyEnv) f1 f2 (words : list (list N * list N)) len,
       same_form f1 f2 →
       build_request f1 = build_request f2
       ∧ search_words f1 words len = search_words f2 words len).
Proof.
  split_and!.
  - apply reading_ok_spec.
  - apply complete_ok_spec.
  - apply excluded_spec.
  - intros E f1 f2 words len Hsame. unfold search_words.
    by rewrite (build_request_same f1 f2 Hsame).
Qed.

Lemma case_handling_witness :
  same_form (H:=toy_env) (initial_form (lit " M")) (initial_form (lit "m"))
  ∧ search_words (H:=toy_env) (initial_form (lit " M")) [mao; chongqing] 1
    = search_words (H:=toy_env) (initial_form (lit "m")) [mao; chongqing] 1
  ∧ search_words (H:=toy_env) (initial_form (lit "m")) [mao; chongqing] 1 = Return [mao].
Proof.
  assert (same_form (H:=toy_env) (initial_form (lit " M")) (initial_form (lit "m"))) as Hsame.
  { split_and!; [|done..]. constructor; [|constructor]. by split_and!. }
  split; [exact Hsame|]. split; [|reflexivity].
  exact (proj2 (proj2 (proj2 (proj2 case_handling)) toy_env _ _ [mao; chongqing] 1%Z Hsame)).
Defined.

(** C8, as stated, fails on the matcher: handed the positional initial "M",
    [word_matches] rejects the character whose only reading has the initial
    "m"; a must-exist "M" is not witnessed by it, and a must-exclude "M"
    does not exclude it. *)
Lemma matcher_is_case_sensitive :
  get_pronunciations (H:=toy_env) 0x6bdb%N
    = Return [mkReading (lit "m") (lit "ao") (lit "2")]
  ∧ word_matches (H:=toy_env) [0x6bdb%N] {[ 0%Z := {[ "initial"%string := lit "M" ]} ]}
      ∅ ∅ [] [] [] = Return false
  ∧ word_matches (H:=toy_env) [0x6bdb%N] {[ 0%Z := {[ "initial"%string := lit "m" ]} ]}
      ∅ ∅ [] [] [] = Return true
  ∧ word_matches (H:=toy_env) [0x6bdb%N] ∅ {[ "initial"%string := [lit "M"] ]}
      ∅ [] [] [] = Return false
  ∧ word_matches (H:=toy_env) [0x6bdb%N] ∅ ∅ {[ "initial"%string := [lit "M"] ]}
      [] [] [] = Return true.
Proof. by vm_compute. Qed.

(** * Further properties

    Properties of the matcher, of the request built from the form, of the
    filter and of the loading of the word lists, beyond the ones above. *)

(** ** More on [word_matches] *)

(** X1. The only way [word_matches] fails is the [IndexError] of
    [word[i]]: it never raises [TypeError] (the entries of [chosen] are all
    set when they are read) and the search never runs out of fuel; it
    raises [IndexError] exactly when some key of [exact_char_reqs] is not
    an index of the word and every item before it, in the order of the
    dictionary, matches. *)
Theorem word_matches_failure `{PyEnv} (word : list N) sp amb exc ex ac nc :
  word_matches word sp amb exc ex ac nc ≠ OutOfFuel
  ∧ word_matches word sp amb exc ex ac nc ≠ Raise TypeError
  ∧ (word_matches word sp amb exc ex ac nc = Raise IndexError ↔
     ∃ before k c after,
       ex = before ++ (k, c) :: after
       ∧ ¬ (- Z.of_nat (length word) ≤ k < Z.of_nat (length word))%Z
       ∧ ∀ k' c', (k', c') ∈ before → py_index word k' = Return c').
Proof.
  pose proof (word_matches_check_exact word sp amb exc ex ac nc) as Hw.
  pose proof (check_exact_Raise word ex) as Hr.
  destruct (check_exact word ex) as [ok|e|] eqn:Hex; [| |done].
  - destruct Hw as [b ->]. split_and!; [done..|]. split; [done|].
    intros Hsplit. pose proof (proj2 (Hr IndexError) (conj eq_refl Hsplit)) as Hbad.
    discriminate Hbad.
  - rewrite Hw. destruct (proj1 (Hr e) eq_refl) as [-> Hsplit]. split_and!; [done..|].
    split; [done|]. by intros _.
Qed.

(** X2. [word_matches] returns [True] exactly when the four checks hold
    together: every item [(k, c)] of [exact_char_reqs] finds [c] in the word
    at position [k], or at [k + len(word)] for a negative [k]; a satisfying
    assignment of readings exists; every must-contain character occurs in
    the word; no must-exclude character does. *)
Theorem word_matches_accepts `{PyEnv} (word : list N) sp amb exc ex ac nc :
  word_matches word sp amb exc ex ac nc = Return true ↔
    (∀ k c, (k, c) ∈ ex →
       ∃ j, word !! j = Some c
            ∧ (k = Z.of_nat j ∨ k = (Z.of_nat j - Z.of_nat (length word))%Z))
    ∧ (∃ a, satisfying_assignment word sp amb exc a)
    ∧ (∀ c, c ∈ ac → c ∈ word)
    ∧ (∀ c, c ∈ nc → c ∉ word).
Proof.
  rewrite word_matches_true, check_exact_true.
  by setoid_rewrite py_index_Return.
Qed.

Lemma word_matches_never `{PyEnv} (word : list N) sp amb exc ex ac nc :
  (∀ a, ¬ satisfying_assignment word sp amb exc a) →
  word_matches word sp amb exc ex ac nc ≠ Return true.
Proof. intros Hno (_ & [a Ha] & _)%word_matches_true. by apply (Hno a). Qed.

Lemma candidates_insert_outside `{PyEnv} sp k req i (word : list N) :
  ¬ (Z.of_nat i ≤ k < Z.of_nat (i + length word))%Z →
  candidates (<[k := req]> sp) i word = candidates sp i word.
Proof.
  revert i. induction word as [|ch word IH]; intros i Hout; simpl; [done|].
  simpl in Hout. rewrite IH by lia. f_equal. unfold filter_position.
  rewrite lookup_insert_ne; [done|lia].
Qed.

Lemma phonetic_search_candidates `{PyEnv} (word : list N) sp1 sp2 amb exc :
  candidates sp1 0 word = candidates sp2 0 word →
  phonetic_search word sp1 amb exc = phonetic_search word sp2 amb exc.
Proof.
  intros Hc. unfold phonetic_search. by rewrite !collect_possibilities_spec, Hc.
Qed.

(** X3. A key of [specific_reqs] that is not a position of the word (a
    negative one, or one at or beyond its length) is never looked up:
    adding a pattern there changes nothing, and raises nothing, whereas
    such a key in [exact_char_reqs] raises. *)
Theorem positional_key_outside_ignored `{PyEnv} (word : list N) sp k req amb exc ex ac nc :
  ¬ (0 ≤ k < Z.of_nat (length word))%Z →
  word_matches word (<[k := req]> sp) amb exc ex ac nc
  = word_matches word sp amb exc ex ac nc.
Proof.
  intros Hout. unfold word_matches.
  rewrite (phonetic_search_candidates word (<[k := req]> sp) sp); [done|].
  apply candidates_insert_outside. simpl. lia.
Qed.

Lemma positional_key_outside_ignored_witness :
  ¬ (0 ≤ 2 < Z.of_nat (length [0x91cd%N; 0x5e86%N]))%Z
  ∧ word_matches (H:=toy_env) [0x91cd%N; 0x5e86%N]
      (<[2%Z := {[ "tone"%string := lit "1" ]}]> ∅) ∅ ∅ [] [] []
    = word_matches (H:=toy_env) [0x91cd%N; 0x5e86%N] ∅ ∅ ∅ [] [] [].
Proof.
  assert (¬ (0 ≤ 2 < Z.of_nat (length [0x91cd%N; 0x5e86%N]))%Z) as Hout by (simpl; lia).
  split; [exact Hout|].
  exact (positional_key_outside_ignored (H:=toy_env) _ ∅ 2%Z _ ∅ ∅ [] [] [] Hout).
Defined.

Lemma readings_nonempty `{PyEnv} ch :
  readings ch ≠ [] ↔ Exists (λ py, py ≠ []) (pinyin ch).
Proof.
  rewrite Exists_exists. split.
  - intros Hne. destruct (readings ch) as [|r rs] eqn:Hr; [done|].
    assert (r ∈ readings ch) as (py & ? & ? & _)%elem_of_readings by (rewrite Hr; left).
    eauto.
  - intros (py & Hin & Hne) Hnil.
    assert (reading_of py ∈ readings ch) as Hr.
    { apply elem_of_readings. exists py. split_and!; [done..|]. by apply split_pinyin_nonempty. }
    rewrite Hnil in Hr. by apply elem_of_nil in Hr.
Qed.

Lemma witnessed_no_values amb a :
  (∀ field, default [] (amb !! field) = []) → witnessed amb a.
Proof.
  intros Hamb. apply witnessed_default. intros field v _ Hv. rewrite Hamb in Hv.
  by apply elem_of_nil in Hv.
Qed.

Lemma carries_no_values exc p :
  (∀ field, default [] (exc !! field) = []) → ¬ carries exc p.
Proof.
  intros Hexc (field & v & _ & Hv)%carries_default. rewrite Hexc in Hv.
  by apply elem_of_nil in Hv.
Qed.

Lemma unconstrained_assignment `{PyEnv} (word : list N) amb exc :
  (∀ field, default [] (amb !! field) = []) →
  (∀ field, default [] (exc !! field) = []) →
  (∃ a, satisfying_assignment word ∅ amb exc a) ↔ pronounceable word.
Proof.
  intros Hamb Hexc. unfold pronounceable. rewrite Forall_lookup. split.
  - intros (a & Hlen & Hall & _) i ch Hch.
    destruct (lookup_lt_is_Some_2 a i) as [p Hp].
    { rewrite Hlen. by eapply lookup_lt_Some. }
    destruct (Hall i ch p Hch Hp) as [[(rs & Hrs & Hin) _] _].
    rewrite get_pronunciations_spec in Hrs. injection Hrs as <-.
    apply readings_nonempty. intros Hnil. rewrite Hnil in Hin. by apply elem_of_nil in Hin.
  - intros Hall.
    assert (∀ ch, Exists (λ py, py ≠ []) (pinyin ch) → ∃ p, p ∈ readings ch) as Hpick.
    { intros ch Hex%readings_nonempty. destruct (readings ch) as [|p rs]; [done|].
      exists p. left. }
    assert (∃ a, Forall2 (λ ch p, p ∈ readings ch) word a) as [a Ha].
    { clear -Hall Hpick. induction word as [|ch word IH].
      - exists []. constructor.
      - destruct IH as [a Ha].
        { intros i ch' Hi. apply (Hall (S i)). done. }
        destruct (Hpick ch) as [p Hp]; [by apply (Hall 0)|].
        exists (p :: a). by constructor. }
    exists a. split_and!.
    + symmetry. by eapply Forall2_length.
    + intros i ch p Hch Hp. split; [split|].
      * exists (readings ch). split; [apply get_pronunciations_spec|].
        by eapply (Forall2_lookup_lr _ _ _ _ _ _ Ha).
      * intros req. by rewrite lookup_empty.
      * by apply carries_no_values.
    + by apply witnessed_no_values.
Qed.

Lemma unconstrained_spec `{PyEnv} (word : list N) amb exc :
  (∀ field, default [] (amb !! field) = []) →
  (∀ field, default [] (exc !! field) = []) →
  word_matches word ∅ amb exc [] [] [] = Return (bool_decide (pronounceable word)).
Proof.
  intros Hamb Hexc.
  destruct (word_matches_total word ∅ amb exc [] [] []) as [b Hb].
  { intros k c Hin. by apply elem_of_nil in Hin. }
  rewrite Hb. f_equal. apply eq_true_iff_eq. rewrite bool_decide_eq_true.
  rewrite <-(unconstrained_assignment word amb exc Hamb Hexc). split.
  - intros ->. by apply word_matches_true in Hb as (_ & ? & _).
  - intros Ha.
    assert (word_matches word ∅ amb exc [] [] [] = Return true) as Ht.
    { apply word_matches_true. split_and!; [done..| |]; by intros c ?%elem_of_nil. }
    congruence.
Qed.

(** X4. With no positional pattern, no must-exist or must-exclude value
    and no character constraint, [word_matches] returns a Boolean, and it
    is [True] exactly when, for every character of the word, the list that
    [pinyin] returns holds a string that is not empty. *)
Theorem unconstrained_match `{PyEnv} (word : list N) amb exc :
  (∀ field, default [] (amb !! field) = []) →
  (∀ field, default [] (exc !! field) = []) →
  ∃ b, word_matches word ∅ amb exc [] [] [] = Return b
       ∧ (b = true ↔ pronounceable word).
Proof.
  intros Hamb Hexc. rewrite (unconstrained_spec word amb exc Hamb Hexc).
  eexists. split; [done|]. apply bool_decide_eq_true.
Qed.

Lemma unconstrained_match_witness :
  (∀ field, default [] ((∅ : gmap string (list (list N))) !! field) = [])
  ∧ ∃ b, word_matches (H:=toy_env) [0x91cd%N; 0x5e86%N] ∅ ∅ ∅ [] [] [] = Return b
         ∧ (b = true ↔ pronounceable (H:=toy_env) [0x91cd%N; 0x5e86%N]).
Proof.
  assert (∀ field, default [] ((∅ : gmap string (list (list N))) !! field) = []) as Hno.
  { intros field. by rewrite lookup_empty. }
  split; [exact Hno|].
  exact (unconstrained_match (H:=toy_env) [0x91cd%N; 0x5e86%N] ∅ ∅ Hno Hno).
Defined.

Lemma witnessed_field amb a field values (proj : Reading → list N) :
  (∀ p, field_of field p = Some (proj p)) → is_field field →
  amb !! field = Some values → witnessed amb a →
  ∀ v, v ∈ values → v ∈ proj <$> a.
Proof.
  intros Hproj Hfield Hl Hw v Hv.
  destruct (Hw field values v Hfield Hl Hv) as (p & Hp & Hf).
  rewrite Hproj in Hf. injection Hf as <-. by apply list_elem_of_fmap_2.
Qed.

(** X5. When one field of the must-exist constraint lists more values than
    the word has characters, [word_matches] never returns [True]: each
    character takes one reading, and one reading has one value in each
    field. *)
Theorem too_many_required `{PyEnv} (word : list N) sp amb exc ex ac nc field values :
  is_field field → amb !! field = Some values → NoDup values →
  length word < length values →
  word_matches word sp amb exc ex ac nc ≠ Return true.
Proof.
  intros Hfield Hl Hnd Hlen. apply word_matches_never. intros a (Hla & _ & Hw).
  assert (∃ proj : Reading → list N, ∀ p, field_of field p = Some (proj p)) as [proj Hproj].
  { apply is_field_cases in Hfield as [-> | [-> | ->]];
      [by exists initial|by exists final|by exists tone]. }
  pose proof (witnessed_field amb a field values proj Hproj Hfield Hl Hw) as Hsub.
  assert (values ⊆+ proj <$> a) as Hms by by apply NoDup_submseteq.
  apply submseteq_length in Hms. rewrite length_fmap in Hms. lia.
Qed.

Lemma too_many_required_witness :
  is_field "tone"
  ∧ word_matches (H:=toy_env) [0x91cd%N] ∅
      {[ "tone"%string := [lit "4"; lit "2"] ]} ∅ [] [] [] ≠ Return true.
Proof.
  assert (is_field "tone") as Hfield.
  { apply is_field_cases. auto. }
  split; [exact Hfield|].
  apply (too_many_required (H:=toy_env) _ _ _ _ _ _ _ "tone"%string [lit "4"; lit "2"]).
  - exact Hfield.
  - reflexivity.
  - apply NoDup_cons. split; [|apply NoDup_singleton].
    intros Hin%list_elem_of_singleton. discriminate Hin.
  - simpl. lia.
Defined.

(** X6. A value that is both required and excluded in the same field makes
    [word_matches] never return [True], whatever the word. *)
Theorem required_and_excluded `{PyEnv} (word : list N) sp amb exc ex ac nc field v :
  is_field field →
  v ∈ default [] (amb !! field) → v ∈ default [] (exc !! field) →
  word_matches word sp amb exc ex ac nc ≠ Return true.
Proof.
  intros Hfield Hamb Hexc. apply word_matches_never. intros a (Hlen & Hall & Hw).
  rewrite witnessed_default in Hw.
  destruct (Hw field v Hfield Hamb) as (p & Hp & Hf).
  apply list_elem_of_lookup in Hp as [i Hi].
  destruct (lookup_lt_is_Some_2 word i) as [ch Hch].
  { rewrite <-Hlen. by eapply lookup_lt_Some. }
  destruct (Hall i ch p Hch Hi) as [_ Hnc]. apply Hnc, carries_default. eauto.
Qed.

Lemma required_and_excluded_witness :
  is_field "initial"
  ∧ word_matches (H:=toy_env) [0x91cd%N; 0x5e86%N] ∅
      {[ "initial"%string := [lit "q"] ]} {[ "initial"%string := [lit "zh"; lit "q"] ]}
      [] [] [] ≠ Return true.
Proof.
  assert (is_field "initial") as Hfield.
  { apply is_field_cases. auto. }
  split; [exact Hfield|].
  apply (required_and_excluded (H:=toy_env) _ _ _ _ _ _ _ "initial"%string (lit "q") Hfield).
  - left.
  - right. left.
Defined.

(** X7. The character constraints can contradict each other: a character
    that is both must-contain and must-exclude, or an exact character that
    is must-exclude, makes [word_matches] never return [True]. *)
Theorem contradictory_characters `{PyEnv} (word : list N) sp amb exc ex ac nc c :
  c ∈ nc → (c ∈ ac ∨ ∃ k, (k, c) ∈ ex) →
  word_matches word sp amb exc ex ac nc ≠ Return true.
Proof.
  intros Hnc Hc (Hex & _ & Hac & Hnot)%word_matches_true.
  apply (Hnot c Hnc). destruct Hc as [Hc|[k Hk]]; [by apply Hac|].
  rewrite check_exact_true in Hex. apply Hex, py_index_Return in Hk as (j & Hj & _).
  by eapply list_elem_of_lookup_2.
Qed.

Lemma contradictory_characters_witness :
  0x5e86%N ∈ [0x5e86%N]
  ∧ word_matches (H:=toy_env) [0x91cd%N; 0x5e86%N] ∅ ∅ ∅ [(1%Z, 0x5e86%N)] []
      [0x5e86%N] ≠ Return true.
Proof.
  assert (0x5e86%N ∈ [0x5e86%N]) as Hnc by left.
  split; [exact Hnc|].
  apply (contradictory_characters (H:=toy_env) _ _ _ _ _ _ _ 0x5e86%N Hnc).
  right. exists 1%Z. left.
Defined.

(** ** A richer library *)

(** X8. Transcriptions only add matches: if a second library gives every
    character at least the transcriptions of the first, every word that
    [word_matches] accepts with the first it accepts with the second, for
    the same request. *)
Theorem more_transcriptions_more_matches (E1 E2 : PyEnv) (word : list N)
    sp amb exc ex ac nc :
  (∀ ch py, py ∈ @pinyin E1 ch → py ∈ @pinyin E2 ch) →
  word_matches (H:=E1) word sp amb exc ex ac nc = Return true →
  word_matches (H:=E2) word sp amb exc ex ac nc = Return true.
Proof.
  intros Hsub. rewrite !word_matches_true.
  intros (Hex & (a & Hlen & Hall & Hw) & Hac & Hnc). split_and!; [done| |done..].
  exists a. split_and!; [done| |done].
  intros i ch p Hch Hp. destruct (Hall i ch p Hch Hp) as [[Hrs Hpat] Hnot].
  split; [split; [|done]|done].
  destruct Hrs as (rs & Hrs & Hin). rewrite get_pronunciations_spec in Hrs.
  injection Hrs as <-. apply elem_of_readings in Hin as (py & Hpy & Hne & Hs).
  exists (readings ch). split; [apply get_pronunciations_spec|].
  apply elem_of_readings. exists py. auto.
Qed.

Lemma more_transcriptions_more_matches_witness :
  (∀ ch py, py ∈ @pinyin toy_env ch → py ∈ @pinyin toy_env_more ch)
  ∧ word_matches (H:=toy_env_more) [0x91cd%N] ∅ {[ "tone"%string := [lit "2"] ]} ∅ [] [] []
    = Return true.
Proof.
  assert (∀ ch py, py ∈ @pinyin toy_env ch → py ∈ @pinyin toy_env_more ch) as Hsub.
  { intros ch py Hin. simpl. apply elem_of_app. by left. }
  split; [exact Hsub|].
  apply (more_transcriptions_more_matches toy_env toy_env_more _ _ _ _ _ _ _ Hsub).
  reflexivity.
Defined.

(** ** [get_pronunciations] returns distinct readings *)

Lemma reading_of_inj (py1 py2 : list N) :
  py1 ≠ [] → py2 ≠ [] → reading_of py1 = reading_of py2 → py1 = py2.
Proof.
  intros H1%split_pinyin_nonempty H2%split_pinyin_nonempty Heq.
  apply reading_shape in H1 as [-> _]. apply reading_shape in H2 as [-> _].
  by rewrite Heq.
Qed.

Lemma NoDup_List_filter {A} (f : A → bool) (l : list A) : NoDup l → NoDup (List.filter f l).
Proof.
  induction 1 as [|x l Hx Hl IH]; simpl; [constructor|].
  destruct (f x); [|done]. constructor; [|done].
  intros [Hin _]%elem_of_List_filter. done.
Qed.

Lemma NoDup_readings `{PyEnv} ch : NoDup (readings ch).
Proof.
  unfold readings.
  assert (NoDup (List.filter truthy (py_set (pinyin ch)))) as Hnd.
  { apply NoDup_List_filter, py_set_NoDup. }
  assert (Forall (λ py, py ≠ []) (List.filter truthy (py_set (pinyin ch)))) as Hne.
  { apply Forall_forall. intros py [_ Ht]%elem_of_List_filter. by apply truthy_true. }
  induction Hnd as [|py l Hpy Hl IH]; [constructor|].
  apply Forall_cons in Hne as [Hne Hne']. rewrite fmap_cons. constructor; [|auto].
  intros (py' & Heq & Hin)%list_elem_of_fmap.
  rewrite Forall_forall in Hne'.
  apply reading_of_inj in Heq; [|by auto..]. by subst.
Qed.

Lemma length_readings `{PyEnv} ch :
  length (readings ch) = length (remove_dups (List.filter truthy (pinyin ch))).
Proof.
  unfold readings. rewrite length_fmap. apply Permutation_length, NoDup_Permutation.
  - apply NoDup_List_filter, py_set_NoDup.
  - apply NoDup_remove_dups.
  - intros py. rewrite elem_of_remove_dups, !elem_of_List_filter, py_set_elem. done.
Qed.

Lemma length_remove_dups_le {A} `{EqDecision A} (l : list A) :
  length (remove_dups l) ≤ length l.
Proof.
  induction l as [|x l IH]; simpl; [done|]. case_decide; simpl; lia.
Qed.

(** X9. [get_pronunciations] returns each reading once: its transcriptions
    are made distinct by [set(...)] and distinct transcriptions give
    distinct readings, so the list has as many readings as the character
    has distinct transcriptions that are not empty. *)
Theorem readings_distinct `{PyEnv} (ch : N) :
  ∃ rs, get_pronunciations ch = Return rs
        ∧ NoDup rs
        ∧ length rs = length (remove_dups (List.filter truthy (pinyin ch)))
        ∧ length rs ≤ length (pinyin ch).
Proof.
  exists (readings ch). split_and!.
  - apply get_pronunciations_spec.
  - apply NoDup_readings.
  - apply length_readings.
  - rewrite length_readings.
    etrans; [apply length_remove_dups_le|].
    apply sublist_length, filter_sublist.
Qed.

(** ** The request [search_words] builds *)

Lemma dict_set_fresh {V} (items : list (Z * V)) k v :
  (∀ k' v', (k', v') ∈ items → k' ≠ k) → dict_set items k v = items ++ [(k, v)].
Proof.
  induction items as [|[k0 v0] items IH]; intros Hfresh; simpl; [done|].
  rewrite bool_decide_false by (apply (Hfresh k0 v0); left).
  rewrite IH; [done|]. intros k' v' Hin. apply (Hfresh k' v'). by right.
Qed.

Lemma exact_items_keys `{PyEnv} i inputs k c :
  (k, c) ∈ exact_items i inputs ↔
  ∃ j inp rest, k = Z.of_nat (i + j) ∧ inputs !! j = Some inp
                ∧ py_strip (pos_exact inp) = c :: rest.
Proof.
  revert i. induction inputs as [|inp inputs IH]; intros i; simpl.
  - rewrite elem_of_nil. split; [done|]. by intros (j & inp & rest & _ & ? & _).
  - assert ((k, c) ∈ exact_items (S i) inputs ↔
            ∃ j inp0 rest, k = Z.of_nat (i + S j) ∧ inputs !! j = Some inp0
                           ∧ py_strip (pos_exact inp0) = c :: rest) as IH'.
    { rewrite IH. by setoid_rewrite Nat.add_succ_r. }
    destruct (py_strip (pos_exact inp)) as [|c0 rest0] eqn:Hs.
    + rewrite IH'. split.
      * intros (j & inp0 & rest & ? & ? & ?). exists (S j), inp0, rest. done.
      * intros ([|j] & inp0 & rest & ? & Hl & Hr); simpl in Hl; [|eauto 6].
        injection Hl as <-. congruence.
    + rewrite elem_of_cons, IH'. split.
      * intros [[= -> ->]|(j & inp0 & rest & ? & ? & ?)].
        -- exists 0, inp, rest0. by rewrite Nat.add_0_r.
        -- exists (S j), inp0, rest. done.
      * intros ([|j] & inp0 & rest & -> & Hl & Hr); simpl in Hl.
        -- injection Hl as <-. left. rewrite Nat.add_0_r. congruence.
        -- right. eauto 6.
Qed.

Lemma exact_items_sorted `{PyEnv} i inputs a b ka kb :
  a < b → (exact_items i inputs).*1 !! a = Some ka →
  (exact_items i inputs).*1 !! b = Some kb → (ka < kb)%Z.
Proof.
  revert i a b. induction inputs as [|inp inputs IH]; intros i a b Hab; simpl; [done|].
  destruct (py_strip (pos_exact inp)) as [|c0 rest0]; [by apply IH|].
  rewrite fmap_cons. destruct b as [|b]; [lia|]. destruct a as [|a]; simpl.
  - intros [= <-] Hb. apply list_elem_of_lookup_2, list_elem_of_fmap in Hb
      as ([k' c] & -> & Hin).
    apply exact_items_keys in Hin as (j & _ & _ & -> & _). simpl. lia.
  - apply IH. lia.
Qed.

Lemma read_positions_spec `{PyEnv} i inputs sp ex :
  (∀ k c, (k, c) ∈ ex → (k < Z.of_nat i)%Z) →
  (read_positions i inputs sp ex).2 = ex ++ exact_items i inputs
  ∧ ∀ k, (read_positions i inputs sp ex).1 !! k =
         if decide (Z.of_nat i ≤ k)%Z
         then match inputs !! (Z.to_nat k - i) ≫= position_req with
              | Some req => Some req
              | None => sp !! k
              end
         else sp !! k.
Proof.
  revert i sp ex. induction inputs as [|inp inputs IH]; intros i sp ex Hex; simpl.
  - split; [by rewrite app_nil_r|]. intros k. by case_decide.
  - set (sp' := match position_req inp with
                | Some req => <[Z.of_nat i:=req]> sp
                | None => sp
                end).
    set (ex' := match py_strip (pos_exact inp) with
                | [] => ex
                | c :: _ => dict_set ex (Z.of_nat i) c
                end).
    assert (ex' = ex ++ match py_strip (pos_exact inp) with
                        | [] => []
                        | c :: _ => [(Z.of_nat i, c)]
                        end) as Hex'.
    { unfold ex'. destruct (py_strip (pos_exact inp)); [by rewrite app_nil_r|].
      apply dict_set_fresh. intros k' v' Hin%Hex. lia. }
    destruct (IH (S i) sp' ex') as [Hitems Hlook].
    { intros k c. rewrite Hex'. intros [Hin|Hin]%elem_of_app.
      - apply Hex in Hin. lia.
      - destruct (py_strip (pos_exact inp)); [by apply elem_of_nil in Hin|].
        apply list_elem_of_singleton in Hin as [= -> _]. lia. }
    split.
    + rewrite Hitems, Hex'. destruct (py_strip (pos_exact inp)); simpl.
      * by rewrite app_nil_r.
      * by rewrite <-app_assoc.
    + intros k. rewrite Hlook. case_decide as Hk1.
      * rewrite decide_True by lia.
        replace (Z.to_nat k - i) with (S (Z.to_nat k - S i)) by lia. simpl.
        destruct (inputs !! (Z.to_nat k - S i) ≫= position_req); [done|].
        unfold sp'. destruct (position_req inp); [|done].
        rewrite lookup_insert_ne; [done|lia].
      * case_decide as Hk2.
        -- assert (k = Z.of_nat i) as -> by lia.
           replace (Z.to_nat (Z.of_nat i) - i) with 0 by lia. simpl.
           unfold sp'. destruct (position_req inp); [by rewrite lookup_insert_eq|done].
        -- unfold sp'. destruct (position_req inp); [|done].
           rewrite lookup_insert_ne; [done|lia].
Qed.

Lemma position_req_fields `{PyEnv} inp req field want :
  position_req inp = Some req → req !! field = Some want →
  is_field field ∧ want ≠ [].
Proof.
  unfold position_req. destruct (_ || _ || _); [|done]. intros [= <-].
  destruct (truthy (py_lower (py_strip (pos_initial inp)))) eqn:Hi,
           (truthy (py_lower (py_strip (pos_final inp)))) eqn:Hf,
           (truthy (py_strip (pos_tone inp))) eqn:Ht;
    rewrite ?truthy_true in *;
    repeat (rewrite lookup_insert; case_decide; simplify_eq);
    rewrite ?lookup_empty; intros; simplify_eq;
    (split; [apply is_field_cases; auto|done]).
Qed.

(** X10. What [search_words] builds from the rows: the pattern of position
    [i] is the one read from row [i], and no other key has a pattern; a
    pattern has only the keys initial, final and tone, with values that are
    not empty; [exact_char_reqs] has one item per row whose exact entry is
    not blank, holding the first character of the stripped entry, with
    keys in increasing order (so no key twice). *)
Theorem request_from_rows `{PyEnv} (form : Form) :
  (∀ k, specific_reqs (build_request form) !! k =
        if decide (0 ≤ k)%Z then position_inputs form !! Z.to_nat k ≫= position_req
        else None)
  ∧ (∀ inp req field want,
       position_req inp = Some req → req !! field = Some want →
       is_field field ∧ want ≠ [])
  ∧ (∀ k c, (k, c) ∈ exact_char_reqs (build_request form) ↔
            ∃ i inp rest, k = Z.of_nat i ∧ position_inputs form !! i = Some inp
                          ∧ py_strip (pos_exact inp) = c :: rest)
  ∧ (∀ a b ka kb,
       a < b → (exact_char_reqs (build_request form)).*1 !! a = Some ka →
       (exact_char_reqs (build_request form)).*1 !! b = Some kb → (ka < kb)%Z).
Proof.
  destruct (read_positions_spec 0 (position_inputs form) ∅ []) as [Hitems Hlook].
  { intros k c Hin. by apply elem_of_nil in Hin. }
  assert (specific_reqs (build_request form)
            = (read_positions 0 (position_inputs form) ∅ []).1
          ∧ exact_char_reqs (build_request form)
            = (read_positions 0 (position_inputs form) ∅ []).2) as [-> ->].
  { unfold build_request. by destruct (read_positions _ _ _ _). }
  rewrite Hitems. simpl. split_and!.
  - intros k. rewrite Hlook. change (Z.of_nat 0) with 0%Z. case_decide; [|done].
    rewrite Nat.sub_0_r. rewrite lookup_empty. by destruct (_ ≫= _).
  - apply @position_req_fields.
  - intros k c. by rewrite exact_items_keys.
  - apply exact_items_sorted.
Qed.

Lemma parse_values_elem `{PyEnv} text v :
  v ∈ parse_values text ↔
  v ≠ [] ∧ ∃ x, x ∈ py_split comma text [] ∧ v = py_strip x.
Proof.
  unfold parse_values. rewrite py_set_elem, list_elem_of_fmap. split.
  - intros (x & -> & [Hx Ht]%elem_of_List_filter). apply truthy_true in Ht. eauto.
  - intros (Hne & x & Hx & ->). exists x. split; [done|].
    apply elem_of_List_filter. split; [done|]. by apply truthy_true.
Qed.

Lemma phonetic_reqs_lookup_Some `{PyEnv} (i f t : list N) field :
  phonetic_reqs i f t !! field =
  if decide (field = "initial"%string)
  then Some (if truthy (py_lower (py_strip i))
             then parse_values (py_lower (py_strip i)) else [])
  else if decide (field = "final"%string)
  then Some (if truthy (py_lower (py_strip f))
             then parse_values (py_lower (py_strip f)) else [])
  else if decide (field = "tone"%string)
  then Some (if truthy (py_strip t) then parse_values (py_strip t) else [])
  else None.
Proof.
  unfold phonetic_reqs.
  destruct (truthy (py_lower (py_strip i))), (truthy (py_lower (py_strip f))),
    (truthy (py_strip t)); repeat case_decide; simplify_map_eq; done.
Qed.

Lemma phonetic_reqs_values `{PyEnv} (i f t : list N) field values :
  phonetic_reqs i f t !! field = Some values →
  is_field field ∧ NoDup values ∧ ∀ v, v ∈ values → v ≠ [].
Proof.
  assert (∀ (b : bool) text,
            NoDup (if b then parse_values text else [])
            ∧ ∀ v, v ∈ (if b then parse_values text else []) → v ≠ []) as Hparse.
  { intros [] text.
    - split; [apply py_set_NoDup|]. by intros v [? _]%parse_values_elem.
    - split; [constructor|]. by intros v ?%elem_of_nil. }
  rewrite phonetic_reqs_lookup_Some, is_field_cases.
  repeat case_decide; intros [= <-]; auto.
Qed.

Lemma phonetic_reqs_keys `{PyEnv} (i f t : list N) field :
  is_field field → is_Some (phonetic_reqs i f t !! field).
Proof.
  rewrite phonetic_reqs_lookup_Some.
  intros [-> | [-> | ->]]%is_field_cases; repeat case_decide; done.
Qed.

(** X11. The two dictionaries of sets that [search_words] builds have
    exactly the keys initial, final and tone; their sets hold no value
    twice and never the empty string.  So no form can require or exclude
    the neutral tone, whose value is the empty string: a reading is never
    excluded on account of an empty field. *)
Theorem aggregate_sets_from_form `{PyEnv} (form : Form) :
  (∀ field, is_field field ↔ is_Some (ambiguous_reqs (build_request form) !! field))
  ∧ (∀ field, is_field field ↔ is_Some (exclude_reqs (build_request form) !! field))
  ∧ (∀ field values,
       ambiguous_reqs (build_request form) !! field = Some values
       ∨ exclude_reqs (build_request form) !! field = Some values →
       NoDup values ∧ ∀ v, v ∈ values → v ≠ [])
  ∧ (∀ field, excluded_by (exclude_reqs (build_request form)) field [] = false).
Proof.
  assert (∃ i f t, ambiguous_reqs (build_request form) = phonetic_reqs i f t)
    as (i1 & f1 & t1 & ->).
  { unfold build_request. destruct (read_positions _ _ _ _). simpl. eauto. }
  assert (∃ i f t, exclude_reqs (build_request form) = phonetic_reqs i f t)
    as (i2 & f2 & t2 & ->).
  { unfold build_request. destruct (read_positions _ _ _ _). simpl. eauto. }
  split_and!.
  - intros field. split; [apply phonetic_reqs_keys|].
    intros [values Hl]. by apply phonetic_reqs_values in Hl as [? _].
  - intros field. split; [apply phonetic_reqs_keys|].
    intros [values Hl]. by apply phonetic_reqs_values in Hl as [? _].
  - intros field values [Hl|Hl]; by apply phonetic_reqs_values in Hl as (_ & ? & ?).
  - intros field. unfold excluded_by.
    destruct (phonetic_reqs i2 f2 t2 !! field) as [values|] eqn:Hl; [|done].
    apply phonetic_reqs_values in Hl as (_ & _ & Hne).
    apply bool_decide_eq_false. intros Hin. by apply (Hne []).
Qed.

(** ** More on the filter *)

Lemma match_loop_returns `{PyEnv} rq (words : list (list N * list N)) acc l :
  match_loop rq words acc = Return l →
  ∀ e, e ∈ words → ∃ b, matches rq e.1 = Return b.
Proof.
  revert acc. induction words as [|[word t] words IH]; intros acc Hl e Hin;
    [by apply elem_of_nil in Hin|].
  simpl in Hl. destruct (matches rq word) as [b| |] eqn:Hm; simpl in Hl; [|done..].
  apply elem_of_cons in Hin as [-> |Hin]; [eauto|]. by eapply IH.
Qed.

Lemma filter_words_spec `{PyEnv} rq (words : list (list N * list N)) len :
  (∀ e, e ∈ words → Z.of_nat (length e.1) = len → ∃ b, matches rq e.1 = Return b) →
  filter_words words len rq = Return (List.filter (accepts len rq) words).
Proof.
  intros Hall. unfold filter_words.
  edestruct (match_loop_total rq) as [l Hl];
    [|rewrite Hl; f_equal; by eapply filter_words_Return].
  intros e [He Hlen%bool_decide_eq_true]%elem_of_List_filter. auto.
Qed.

Lemma filter_words_returns `{PyEnv} rq (words : list (list N * list N)) len l :
  filter_words words len rq = Return l →
  ∀ e, e ∈ words → Z.of_nat (length e.1) = len → ∃ b, matches rq e.1 = Return b.
Proof.
  unfold filter_words. intros Hl e He Hlen. eapply match_loop_returns; [done|].
  apply elem_of_List_filter. split; [done|]. by apply bool_decide_eq_true.
Qed.

Lemma filter_filter_implies {A} (f g : A → bool) (l : list A) :
  (∀ x, g x = true → f x = true) →
  List.filter g (List.filter f l) = List.filter g l.
Proof.
  intros Hgf. induction l as [|x l IH]; simpl; [done|].
  destruct (f x) eqn:Hf; simpl.
  - by rewrite IH.
  - destruct (g x) eqn:Hg; [|done]. apply Hgf in Hg. congruence.
Qed.

(** X12. Searching in a previous result.  When a request [R2] accepts only
    words that [R1] accepts and both searches of a word list return,
    filtering the result of [R1] with [R2] gives the result of [R2] on the
    whole list, and filtering a result again with its own request gives it
    back. *)
Theorem refine_previous_result `{PyEnv} R1 R2 (words : list (list N * list N)) len l1 l2 :
  (∀ word, matches R2 word = Return true → matches R1 word = Return true) →
  filter_words words len R1 = Return l1 →
  filter_words words len R2 = Return l2 →
  filter_words l1 len R2 = Return l2 ∧ filter_words l1 len R1 = Return l1.
Proof.
  intros Himp H1 H2.
  pose proof (filter_words_returns _ _ _ _ H1) as Hr1.
  pose proof (filter_words_returns _ _ _ _ H2) as Hr2.
  apply filter_words_Return in H1 as ->. apply filter_words_Return in H2 as ->.
  split.
  - rewrite filter_words_spec.
    + f_equal. apply filter_filter_implies. intros e. unfold accepts.
      rewrite !andb_true_iff, !bool_decide_eq_true. intros [? ?]. auto.
    + intros e [He _]%elem_of_List_filter. by apply Hr2.
  - rewrite filter_words_spec.
    + f_equal. by apply filter_filter_implies.
    + intros e [He _]%elem_of_List_filter. by apply Hr1.
Qed.

Lemma refine_previous_result_witness :
  (∀ word, matches (H:=toy_env) tone4_q word = Return true →
           matches (H:=toy_env) tone4_at_0 word = Return true)
  ∧ filter_words (H:=toy_env) [chongqing; congrong; chongqing] 2 tone4_at_0
    = Return [chongqing; chongqing]
  ∧ filter_words (H:=toy_env) [chongqing; chongqing] 2 tone4_q
    = Return [chongqing; chongqing].
Proof.
  assert (∀ word, matches (H:=toy_env) tone4_q word = Return true →
                  matches (H:=toy_env) tone4_at_0 word = Return true) as Himp.
  { intros word. apply matches_mono.
    apply (add_must_exist tone4_at_0 "initial" (lit "q") [lit "q"]).
    intros x. rewrite list_elem_of_singleton. simpl. rewrite lookup_empty. simpl.
    rewrite elem_of_nil. tauto. }
  split; [exact Himp|]. split; [reflexivity|].
  exact (proj1 (refine_previous_result (H:=toy_env) tone4_at_0 tone4_q
                  [chongqing; congrong; chongqing] 2%Z _ _ Himp eq_refl eq_refl)).
Defined.

Lemma match_loop_relabel `{PyEnv} (relabel : list N → list N) rq
    (words acc : list (list N * list N)) :
  match_loop rq (map (λ e, (e.1, relabel e.2)) words) (map (λ e, (e.1, relabel e.2)) acc)
  = map (λ e, (e.1, relabel e.2)) <$> match_loop rq words acc.
Proof.
  revert acc. induction words as [|[word t] words IH]; intros acc; simpl; [done|].
  destruct (matches rq word) as [b| |]; simpl; [|done..].
  rewrite <-IH. by destruct b; rewrite ?map_app.
Qed.

(** X13. The filter never looks at the source labels: relabelling the
    entries before the search gives the relabelled result of the
    search. *)
Theorem labels_not_examined `{PyEnv} (relabel : list N → list N) rq
    (words : list (list N * list N)) len :
  filter_words (map (λ e, (e.1, relabel e.2)) words) len rq
  = map (λ e, (e.1, relabel e.2)) <$> filter_words words len rq.
Proof.
  unfold filter_words. rewrite <-(match_loop_relabel relabel rq _ []). f_equal.
  induction words as [|[word t] words IH]; simpl; [done|].
  case_bool_decide; simpl; by rewrite IH.
Qed.

Lemma matches_fuel `{PyEnv} rq (word : list N) : matches rq word ≠ OutOfFuel.
Proof.
  unfold matches.
  pose proof (word_matches_check_exact word (specific_reqs rq) (ambiguous_reqs rq)
                (exclude_reqs rq) (exact_char_reqs rq) (ambiguous_chars rq)
                (non_exist_chars rq)) as Hw.
  destruct (check_exact word (exact_char_reqs rq)); [|congruence|done].
  destruct Hw as [b ->]. done.
Qed.

Lemma filter_loop_failure `{PyEnv} rq (words : list (list N * list N)) len acc :
  match_loop rq (List.filter (λ wt, bool_decide (Z.of_nat (length wt.1) = len)) words) acc
    ≠ OutOfFuel
  ∧ ∀ e,
      match_loop rq (List.filter (λ wt, bool_decide (Z.of_nat (length wt.1) = len)) words)
                 acc = Raise e ↔
      ∃ before w t after,
        words = before ++ (w, t) :: after
        ∧ Z.of_nat (length w) = len
        ∧ matches rq w = Raise e
        ∧ ∀ w' t', (w', t') ∈ before → Z.of_nat (length w') = len →
                   ∃ b, matches rq w' = Return b.
Proof.
  revert acc. induction words as [|[w t] words IH]; intros acc; simpl.
  - split; [done|]. intros e. split; [done|].
    intros (before & w & t & after & Hnil & _). by destruct before.
  - case_bool_decide as Hlen; simpl.
    + pose proof (matches_fuel rq w) as Hfuel.
      destruct (matches rq w) as [b|e'|] eqn:Hm; simpl; [| |done].
      * destruct (IH (if b then acc ++ [(w, t)] else acc)) as [IHf IHr].
        split; [done|]. intros e. rewrite IHr. split.
        -- intros (before & w1 & t1 & after & -> & ? & ? & Hall).
           exists ((w, t) :: before), w1, t1, after. split_and!; [done..|].
           intros w' t' [[= -> ->]|Hin]%elem_of_cons; eauto.
        -- intros (before & w1 & t1 & after & Heq & ? & Hr & Hall).
           destruct before as [|[w0 t0] before]; simpl in Heq; injection Heq as <- <- ->;
             [congruence|].
           exists before, w1, t1, after. split_and!; [done..|].
           intros w' t' Hin. apply (Hall w' t'). by right.
      * split; [done|]. intros e. split.
        -- intros [= <-]. exists [], w, t, words. split_and!; [done..|].
           intros w' t' Hin. by apply elem_of_nil in Hin.
        -- intros (before & w1 & t1 & after & Heq & ? & Hr & Hall).
           destruct before as [|[w0 t0] before]; simpl in Heq; injection Heq as <- <- ->;
             [congruence|].
           destruct (Hall w t) as [b Hb]; [left|done|]. congruence.
    + destruct (IH acc) as [IHf IHr]. split; [done|]. intros e. rewrite IHr. split.
      * intros (before & w1 & t1 & after & -> & ? & ? & Hall).
        exists ((w, t) :: before), w1, t1, after. split_and!; [done..|].
        intros w' t' [[= -> ->]|Hin]%elem_of_cons; [done|eauto].
      * intros (before & w1 & t1 & after & Heq & ? & Hr & Hall).
        destruct before as [|[w0 t0] before]; simpl in Heq; injection Heq as <- <- ->;
          [done|].
        exists before, w1, t1, after. split_and!; [done..|].
        intros w' t' Hin. apply (Hall w' t'). by right.
Qed.

(** X14. The filter fails only through [word_matches]: it raises exactly
    when the matcher raises on some word of the target length, all words of
    that length before it having been judged, and then with the exception
    of that word; words of another length are never handed to the matcher
    and cannot make it fail. *)
Theorem filter_words_failure `{PyEnv} rq (words : list (list N * list N)) len :
  filter_words words len rq ≠ OutOfFuel
  ∧ ∀ e,
      filter_words words len rq = Raise e ↔
      ∃ before w t after,
        words = before ++ (w, t) :: after
        ∧ Z.of_nat (length w) = len
        ∧ matches rq w = Raise e
        ∧ ∀ w' t', (w', t') ∈ before → Z.of_nat (length w') = len →
                   ∃ b, matches rq w' = Return b.
Proof. apply filter_loop_failure. Qed.

(** ** [generate_position_inputs] *)

Lemma generate_replicate len :
  generate_position_inputs (Some len) = replicate (Z.to_nat len) blank_row.
Proof.
  unfold generate_position_inputs, py_range.
  assert (∀ (l : list Z) acc,
            foldl (λ position_inputs _, position_inputs ++ [blank_row]) acc l
            = acc ++ replicate (length l) blank_row) as Hfold.
  { induction l as [|x l IH]; intros acc; simpl; [by rewrite app_nil_r|].
    rewrite IH. by rewrite <-app_assoc. }
  rewrite Hfold. by rewrite length_fmap, length_seq.
Qed.

Lemma read_positions_blank `{PyEnv} i n sp ex :
  py_strip [] = [] → py_lower [] = [] →
  read_positions i (replicate n blank_row) sp ex = (sp, ex).
Proof.
  intros Hs Hl. revert i. induction n as [|n IH]; intros i; simpl; [done|].
  unfold position_req. simpl. rewrite !Hs, !Hl. simpl. apply IH.
Qed.

Lemma blank_request `{PyEnv} len (word : list N) :
  py_strip [] = [] → py_lower [] = [] →
  matches (build_request (blank_form (Some len))) word
  = Return (bool_decide (pronounceable word)).
Proof.
  intros Hs Hl. unfold matches, build_request, blank_form.
  cbn [position_inputs amb_initial_entry amb_final_entry amb_tone_entry
       exc_initial_entry exc_final_entry exc_tone_entry amb_chars_entry
       nonexist_chars_entry].
  rewrite generate_replicate, read_positions_blank by done.
  cbn [specific_reqs ambiguous_reqs exclude_reqs exact_char_reqs ambiguous_chars
       non_exist_chars].
  assert (char_set [] = []) as ->.
  { unfold char_set. by rewrite Hs. }
  apply unconstrained_spec; intros field; rewrite phonetic_reqs_lookup, Hs, Hl;
    by repeat case_decide.
Qed.

(** X15. [generate_position_inputs] makes one blank row per position, none
    for a length that is not positive or not a number.  A search made right
    after it, with nothing typed in, returns the words of that length all of
    whose characters have a transcription; and however the rows are filled
    in afterwards, a search for the length they were generated for returns
    a list: no position lies outside the words. *)
Theorem search_after_generate `{PyEnv} (words : list (list N * list N)) len :
  py_strip [] = [] → py_lower [] = [] →
  generate_position_inputs (Some len) = replicate (Z.to_nat len) blank_row
  ∧ generate_position_inputs None = []
  ∧ search_words (blank_form (Some len)) words len
    = Return (List.filter (λ e, bool_decide (Z.of_nat (length e.1) = len)
                                && bool_decide (pronounceable e.1)) words)
  ∧ (∀ form,
       length (position_inputs form) = length (generate_position_inputs (Some len)) →
       ∃ l, search_words form words len = Return l).
Proof.
  intros Hs Hl. split_and!.
  - apply generate_replicate.
  - done.
  - unfold search_words. rewrite filter_words_spec.
    + f_equal. apply filter_ext. intros e. unfold accepts.
      rewrite blank_request by done. f_equal.
      apply eq_true_iff_eq. rewrite !bool_decide_eq_true. split.
      { intros [= Hb]. by apply bool_decide_eq_true in Hb. }
      intros Hp. f_equal. by apply bool_decide_eq_true.
    + intros e _ _. rewrite blank_request by done. eauto.
  - intros form Hrows. rewrite generate_replicate, length_replicate in Hrows.
    unfold search_words. rewrite filter_words_total; [eauto|].
    intros k c Hin%build_request_keys. lia.
Qed.

Lemma search_after_generate_witness :
  @py_strip toy_env [] = [] ∧ @py_lower toy_env [] = []
  ∧ search_words (H:=toy_env) (blank_form (Some 2%Z))
      [chongqing; mao; ([0x91cd%N; 0x4e00%N], lit "other"); congrong] 2
    = Return [chongqing; congrong].
Proof.
  split; [reflexivity|]. split; [reflexivity|].
  exact (proj1 (proj2 (proj2 (search_after_generate (H:=toy_env)
           [chongqing; mao; ([0x91cd%N; 0x4e00%N], lit "other"); congrong] 2%Z
           eq_refl eq_refl)))).
Defined.

(** ** [load_selected_words] *)

Section whitespace_facts.
Context (isspace : N → bool).

Lemma ws_lstrip_head (s : list N) :
  ws_lstrip isspace s = [] ∨ ∃ c s', ws_lstrip isspace s = c :: s' ∧ isspace c = false.
Proof.
  induction s as [|c s IH]; simpl; [by left|].
  destruct (isspace c) eqn:Hc; [done|]. right. eauto.
Qed.

Lemma ws_lstrip_snoc (s : list N) c :
  isspace c = false → ws_lstrip isspace (s ++ [c]) = ws_lstrip isspace s ++ [c].
Proof.
  intros Hc. induction s as [|c0 s IH]; simpl; [by rewrite Hc|].
  by destruct (isspace c0).
Qed.

Lemma ws_strip_head (s : list N) :
  ws_strip isspace s = [] ∨ ∃ c s', ws_strip isspace s = c :: s' ∧ isspace c = false.
Proof.
  unfold ws_strip. destruct (ws_lstrip_head s) as [-> |(c & s' & -> & Hc)]; [by left|].
  right. rewrite reverse_cons, ws_lstrip_snoc by done.
  rewrite reverse_app. simpl. eauto.
Qed.

Lemma ws_split_tokens (s cur : list N) tok :
  (∀ c, c ∈ cur → isspace c = false) →
  tok ∈ ws_split isspace s cur → tok ≠ [] ∧ ∀ c, c ∈ tok → isspace c = false.
Proof.
  revert cur. induction s as [|c s IH]; intros cur Hcur; simpl.
  - case_bool_decide as Hnil; [by intros ?%elem_of_nil|].
    by intros ->%list_elem_of_singleton.
  - assert (∀ c', c' ∈ @nil N → isspace c' = false) as Hnone by by intros c' ?%elem_of_nil.
    destruct (isspace c) eqn:Hc.
    + case_bool_decide as Hnil; [by apply IH|].
      intros [-> |Hin]%elem_of_cons; [done|]. by apply (IH []).
    + apply IH. intros c' [?| ->%list_elem_of_singleton]%elem_of_app; auto.
Qed.

Lemma ws_split_nonempty (s cur : list N) : cur ≠ [] → ws_split isspace s cur ≠ [].
Proof.
  revert cur. induction s as [|c s IH]; intros cur Hcur; simpl.
  - by rewrite bool_decide_false.
  - destruct (isspace c); [by rewrite bool_decide_false|].
    apply IH. by destruct cur.
Qed.

Lemma ws_split_strip (s : list N) :
  ws_strip isspace s ≠ [] → ws_split isspace (ws_strip isspace s) [] ≠ [].
Proof.
  destruct (ws_strip_head s) as [-> |(c & s' & -> & Hc)]; [done|]. intros _.
  simpl. rewrite Hc. by apply ws_split_nonempty.
Qed.
End whitespace_facts.

Lemma elem_of_concat {A} (x : A) (ls : list (list A)) :
  x ∈ concat ls ↔ ∃ l, x ∈ l ∧ l ∈ ls.
Proof.
  induction ls as [|l ls IH]; simpl.
  - rewrite elem_of_nil. split; [done|]. by intros (l & _ & ?%elem_of_nil).
  - rewrite elem_of_app, IH. split.
    + intros [Hx|(l' & Hx & Hl')]; [exists l; split; [done|left]|].
      exists l'. split; [done|by right].
    + intros (l' & Hx & [-> | Hl']%elem_of_cons); [by left|right; eauto].
Qed.

Lemma dict_get_key {V} (items : list (string * V)) k :
  k ∈ items.*1 → is_Some (dict_get items k).
Proof.
  induction items as [|[k0 v0] items IH]; simpl; [by intros ?%elem_of_nil|].
  case_bool_decide; [eauto|]. intros [?|?]%elem_of_cons; [done|auto].
Qed.

Opaque dict_options.

Section load.
Context `{PyEnv} (isspace : N → bool) (Hstrip : strips_spaces isspace).

Lemma load_lines_spec filename label reads words :
  dict_get dict_options filename = Some label →
  load_lines isspace filename reads words
  = match read_lines reads with
    | inl e => inl (FileError e)
    | inr lines => inr (words ++ omap (line_entry isspace label) lines)
    end.
Proof.
  intros Hlabel. revert words.
  induction reads as [|[e|line] reads IH]; intros words; cbn [load_lines read_lines]; [| done |].
  - cbn [omap]. by rewrite app_nil_r.
  - cbv zeta. destruct (truthy (py_strip line)) eqn:Ht; cbn [negb].
    + apply truthy_true in Ht.
      destruct (ws_split isspace (py_strip line) []) as [|word parts] eqn:Hparts.
      { rewrite Hstrip in Ht, Hparts. by apply ws_split_strip in Ht. }
      rewrite Hlabel, IH. destruct (read_lines reads) as [e|lines]; [done|].
      cbn [omap list_omap]. unfold line_entry at 2. rewrite Hparts. simpl.
      by rewrite <-app_assoc.
    + apply not_true_iff_false in Ht. rewrite truthy_true in Ht.
      apply dec_stable in Ht. rewrite IH. destruct (read_lines reads) as [e|lines]; [done|].
      cbn [omap list_omap]. unfold line_entry at 2. rewrite Ht. done.
Qed.

Lemma load_files_spec fs files words :
  (∀ f, f ∈ files → f ∈ dict_options.*1) →
  load_files isspace fs files words
  = match first_failure fs files with
    | Some e => inl (FileError e)
    | None => inr (words ++ concat (file_entries isspace fs <$> files))
    end.
Proof.
  revert words. induction files as [|filename files IH]; intros words Hkeys;
    cbn [load_files first_failure].
  - simpl. by rewrite app_nil_r.
  - assert (∀ f, f ∈ files → f ∈ dict_options.*1) as Hkeys'.
    { intros f Hf. apply Hkeys. by right. }
    rewrite fmap_cons. cbn [concat]. unfold file_entries at 1.
    destruct (fs filename) as [[e|reads]|]; cbn [fmap option_fmap option_map read_all].
    + done.
    + destruct (dict_get_key dict_options filename) as [label Hlabel]; [apply Hkeys; left|].
      rewrite Hlabel, (load_lines_spec _ label) by done.
      destruct (read_lines reads) as [e|lines]; [done|].
      rewrite IH by done. destruct (first_failure fs files); [done|].
      by rewrite <-app_assoc.
    + rewrite IH by done. by destruct (dict_get dict_options filename).
Qed.

Lemma selected_files_keys checked f : f ∈ selected_files checked → f ∈ dict_options.*1.
Proof. by intros [? _]%elem_of_List_filter. Qed.

Lemma load_selected_words_spec fs checked :
  load_selected_words isspace fs checked
  = match first_failure fs (selected_files checked) with
    | Some e => inl (FileError e)
    | None => inr (concat (file_entries isspace fs <$> selected_files checked))
    end.
Proof.
  unfold load_selected_words. cbv zeta. case_bool_decide as Hsel; [by rewrite Hsel|].
  rewrite load_files_spec; [done|]. apply selected_files_keys.
Qed.

Lemma file_entries_shape fs filename w t :
  (w, t) ∈ file_entries isspace fs filename →
  w ≠ [] ∧ (∀ c, c ∈ w → isspace c = false)
  ∧ dict_get dict_options filename = Some t
  ∧ ∃ p lines line, fs filename = Some p ∧ read_all p = inr lines ∧ line ∈ lines
                    ∧ head (ws_split isspace (py_strip line) []) = Some w.
Proof.
  unfold file_entries. destruct (fs filename) as [p|]; [|by intros ?%elem_of_nil].
  cbn [fmap option_fmap option_map].
  destruct (read_all p) as [e|lines] eqn:Hread; [by intros ?%elem_of_nil|].
  destruct (dict_get dict_options filename) as [label|]; [|by intros ?%elem_of_nil].
  intros (line & Hline & Hentry)%list_elem_of_omap. unfold line_entry in Hentry.
  destruct (head _) as [w'|] eqn:Hhead; simplify_eq/=.
  assert (w ∈ ws_split isspace (py_strip line) []) as Hin.
  { destruct (ws_split isspace (py_strip line) []); simplify_eq/=. left. }
  apply ws_split_tokens in Hin as [? ?]; [|by intros c ?%elem_of_nil].
  split_and!; [done..|]. eauto 10.
Qed.
End load.

Transparent dict_options.

Lemma first_failure_Some (fs : string → option path_state) files e :
  first_failure fs files = Some e ↔
  ∃ before filename after p,
    files = before ++ filename :: after
    ∧ fs filename = Some p ∧ read_all p = inl e
    ∧ ∀ f p', f ∈ before → fs f = Some p' → ∃ lines, read_all p' = inr lines.
Proof.
  induction files as [|f files IH]; cbn [first_failure].
  - split; [done|]. intros (before & ? & ? & ? & Hnil & _). by destruct before.
  - destruct (fs f) as [p|] eqn:Hf; cbn [fmap option_fmap option_map].
    + destruct (read_all p) as [e'|lines] eqn:Hread.
      * split.
        -- intros [= ->]. exists [], f, files, p. split_and!; [done..|].
           by intros ? ? ?%elem_of_nil.
        -- intros ([|f0 before] & filename & after & p' & Heq & Hp' & He & Hall);
             simplify_eq/=; try congruence.
           destruct (Hall f0 p) as [lines Hlines]; [left|done|congruence].
      * rewrite IH. split.
        -- intros (before & filename & after & p' & -> & Hp' & He & Hall).
           exists (f :: before), filename, after, p'. split_and!; [done..|].
           intros f' p'' [-> |Hin]%elem_of_cons Hf'; [|eauto].
           rewrite Hf in Hf'. injection Hf' as <-. eauto.
        -- intros ([|f0 before] & filename & after & p' & Heq & Hp' & He & Hall);
             simplify_eq/=; try congruence.
           exists before, filename, after, p'. split_and!; [done..|].
           intros f' p'' Hin. apply Hall. by right.
    + rewrite IH. split.
      * intros (before & filename & after & p' & -> & Hp' & He & Hall).
        exists (f :: before), filename, after, p'. split_and!; [done..|].
        intros f' p'' [-> |Hin]%elem_of_cons Hf'; [congruence|eauto].
      * intros ([|f0 before] & filename & after & p' & Heq & Hp' & He & Hall);
          simplify_eq/=; try congruence.
        exists before, filename, after, p'. split_and!; [done..|].
        intros f' p'' Hin. apply Hall. by right.
Qed.

Lemma first_failure_None (fs : string → option path_state) files :
  first_failure fs files = None ↔
  ∀ f p, f ∈ files → fs f = Some p → ∃ lines, read_all p = inr lines.
Proof.
  induction files as [|f files IH]; cbn [first_failure].
  - split; [|done]. by intros _ ? ? ?%elem_of_nil.
  - destruct (fs f) as [p|] eqn:Hf; cbn [fmap option_fmap option_map].
    + destruct (read_all p) as [e'|lines] eqn:Hread.
      * split; [done|]. intros Hall. destruct (Hall f p) as [? ?]; [left|done|congruence].
      * rewrite IH. split.
        -- intros Hall f' p' [-> |Hin]%elem_of_cons Hf'; [|eauto].
           rewrite Hf in Hf'. injection Hf' as <-. eauto.
        -- intros Hall f' p' Hin. apply Hall. by right.
    + rewrite IH. split.
      * intros Hall f' p' [-> |Hin]%elem_of_cons Hf'; [congruence|eauto].
      * intros Hall f' p' Hin. apply Hall. by right.
Qed.

Lemma first_failure_filter_ext (fs : string → option path_state) (c1 c2 : string → bool)
    (l : list string) :
  (∀ f, f ∈ l → is_Some (fs f) → c1 f = c2 f) →
  first_failure fs (List.filter c1 l) = first_failure fs (List.filter c2 l).
Proof.
  induction l as [|f l IH]; intros Hc; [done|]. cbn [List.filter].
  assert (first_failure fs (List.filter c1 l) = first_failure fs (List.filter c2 l)) as IH'.
  { apply IH. intros f' Hf'. apply Hc. by right. }
  destruct (fs f) as [p|] eqn:Hf.
  - rewrite <-(Hc f) by (left || by rewrite Hf).
    destruct (c1 f); cbn [first_failure]; by rewrite ?IH'.
  - destruct (c1 f), (c2 f); cbn [first_failure]; by rewrite ?Hf, ?IH'.
Qed.

(** X16. The only exceptions [load_selected_words] raises are those of
    opening and reading the files: a line that is not blank has a first
    token, and every checked file is a key of [dict_options].  It raises
    exactly when some checked file that exists cannot be opened or read to
    its end, with the exception of the first such file in the order of
    [dict_options].  When every checked file that exists can be read, it
    returns, for these files in the order of [dict_options] and for their
    lines that are not blank, in order, the first token of the line with
    the label of the file; a loaded word is never empty and holds no white
    space.  When no file is checked, or none of the checked files exists,
    the list is empty. *)
Theorem load_selected_words_result `{PyEnv} (isspace : N → bool)
    (fs : string → option path_state) (checked : string → bool) :
  strips_spaces isspace →
  load_selected_words isspace fs checked ≠ inl PartsIndexError
  ∧ load_selected_words isspace fs checked ≠ inl LabelKeyError
  ∧ (∀ e, load_selected_words isspace fs checked = inl (FileError e) ↔
          ∃ before filename after p,
            selected_files checked = before ++ filename :: after
            ∧ fs filename = Some p ∧ read_all p = inl e
            ∧ ∀ f p', f ∈ before → fs f = Some p' → ∃ lines, read_all p' = inr lines)
  ∧ ((∀ f p, checked f = true → fs f = Some p → ∃ lines, read_all p = inr lines) →
     load_selected_words isspace fs checked
     = inr (concat (file_entries isspace fs <$> selected_files checked)))
  ∧ (∀ l w t, load_selected_words isspace fs checked = inr l → (w, t) ∈ l →
       w ≠ [] ∧ (∀ c, c ∈ w → isspace c = false)
       ∧ ∃ filename p lines line,
           checked filename = true ∧ dict_get dict_options filename = Some t
           ∧ fs filename = Some p ∧ read_all p = inr lines ∧ line ∈ lines
           ∧ head (ws_split isspace (py_strip line) []) = Some w)
  ∧ ((∀ filename, checked filename = true → fs filename = None) →
     load_selected_words isspace fs checked = inr []).
Proof.
  intros Hstrip. rewrite load_selected_words_spec by done.
  assert ((∀ f p, checked f = true → fs f = Some p → ∃ lines, read_all p = inr lines) →
          first_failure fs (selected_files checked) = None) as Hnone.
  { intros Hall. apply first_failure_None.
    intros f p [_ Hf]%elem_of_List_filter. by apply Hall. }
  split_and!.
  - by destruct (first_failure _ _).
  - by destruct (first_failure _ _).
  - intros e. rewrite <-first_failure_Some.
    destruct (first_failure _ _); split; congruence.
  - intros Hall. by rewrite Hnone.
  - intros l w t Hl Hin. destruct (first_failure _ _); [done|]. injection Hl as <-.
    apply elem_of_concat in Hin
      as (entries & Hin & (filename & -> & Hsel)%list_elem_of_fmap).
    apply file_entries_shape in Hin as (? & ? & ? & p & lines & line & ? & ? & ? & ?).
    apply elem_of_List_filter in Hsel as [_ Hsel]. split_and!; [done..|].
    exists filename, p, lines, line. done.
  - intros Hmissing. rewrite Hnone by (intros f p Hf; by rewrite (Hmissing f Hf)). f_equal.
    clear Hnone.
    assert (∀ f, f ∈ selected_files checked → file_entries isspace fs f = []) as Hnil.
    { intros f' [_ Hf']%elem_of_List_filter. unfold file_entries.
      by rewrite (Hmissing f' Hf'). }
    induction (selected_files checked) as [|f' files' IH']; [done|].
    simpl. rewrite (Hnil f') by left. apply IH'. intros f'' Hin. apply Hnil. by right.
Qed.

Lemma toy_strip_spaces : strips_spaces (H:=toy_env) is_space.
Proof.
  assert (∀ s, strip_left s = ws_lstrip is_space s) as Hl.
  { induction s as [|c s IH]; simpl; [done|]. by rewrite IH. }
  intros s. simpl. unfold toy_strip, ws_strip. by rewrite !Hl.
Qed.

Lemma load_selected_words_result_witness :
  strips_spaces (H:=toy_env) is_space
  ∧ load_selected_words (H:=toy_env) is_space toy_fs toy_checked
    = inr [([0x91cd%N; 0x5e86%N], [0x5730; 0x540d; 0x8bcd; 0x5e93]%N);
           ([0x4ece%N; 0x5bb9%N], [0x5730; 0x540d; 0x8bcd; 0x5e93]%N)]
  ∧ load_selected_words (H:=toy_env) is_space toy_fs
      (λ f, bool_decide (f ∈ ["THUOCL_diming.txt"; "wiki.txt"]%string))
    = inl (FileError UnicodeDecodeError).
Proof.
  split; [exact toy_strip_spaces|]. split.
  - apply (proj1 (proj2 (proj2 (proj2
             (load_selected_words_result (H:=toy_env) is_space toy_fs toy_checked
                toy_strip_spaces))))).
    intros f p Hf%bool_decide_eq_true.
    rewrite !elem_of_cons, elem_of_nil in Hf. destruct Hf as [-> | [-> | []]].
    + discriminate.
    + intros [= <-]. by eexists.
  - apply (proj1 (proj2 (proj2
             (load_selected_words_result (H:=toy_env) is_space toy_fs
                (λ f, bool_decide (f ∈ ["THUOCL_diming.txt"; "wiki.txt"]%string))
                toy_strip_spaces)))).
    exists ["THUOCL_diming.txt"%string], "wiki.txt"%string, [],
      (Opened [inr [0x6bdb; 10]%N; inl UnicodeDecodeError]).
    split_and!; [reflexivity..|].
    intros f p ->%list_elem_of_singleton [= <-]. by eexists.
Defined.

Lemma concat_filter_ext {A B} (g : A → list B) (c1 c2 : A → bool) (l : list A) :
  (∀ x, x ∈ l → g x ≠ [] → c1 x = c2 x) →
  concat (g <$> List.filter c1 l) = concat (g <$> List.filter c2 l).
Proof.
  induction l as [|x l IH]; intros Hc; [done|]. cbn [List.filter].
  assert (concat (g <$> List.filter c1 l) = concat (g <$> List.filter c2 l)) as IH'.
  { apply IH. intros y Hy. apply Hc. by right. }
  destruct (g x) as [|y ys] eqn:Hg.
  - destruct (c1 x), (c2 x); rewrite ?fmap_cons; cbn [concat]; by rewrite ?Hg, ?IH'.
  - rewrite <-(Hc x) by (left || by rewrite Hg).
    destruct (c1 x); rewrite ?fmap_cons; cbn [concat]; by rewrite IH'.
Qed.

Lemma concat_filter_sublist {A B} (g : A → list B) (c1 c2 : A → bool) (l : list A) :
  (∀ x, c1 x = true → c2 x = true) →
  concat (g <$> List.filter c1 l) `sublist_of` concat (g <$> List.filter c2 l).
Proof.
  intros Hc. induction l as [|x l IH]; [done|]. cbn [List.filter].
  destruct (c1 x) eqn:H1.
  - rewrite (Hc x H1), !fmap_cons. cbn [concat]. by apply sublist_app.
  - destruct (c2 x); [|done]. rewrite fmap_cons. cbn [concat].
    by apply sublist_inserts_l.
Qed.

(** X17. A checked file that does not exist is skipped: two selections that
    agree on the files that exist load the same list, or raise the same
    exception.  Checking more dictionaries only adds entries, unless one of
    them cannot be read: when the larger selection loads a list, the
    smaller one loads a sublist of it. *)
Theorem selection_changes `{PyEnv} (isspace : N → bool)
    (fs : string → option path_state) (checked1 checked2 : string → bool) :
  strips_spaces isspace →
  ((∀ f, is_Some (fs f) → checked1 f = checked2 f) →
   load_selected_words isspace fs checked1 = load_selected_words isspace fs checked2)
  ∧ ((∀ f, checked1 f = true → checked2 f = true) →
     ∀ l2, load_selected_words isspace fs checked2 = inr l2 →
           ∃ l1, load_selected_words isspace fs checked1 = inr l1 ∧ l1 `sublist_of` l2).
Proof.
  intros Hstrip. rewrite !load_selected_words_spec by done. split.
  - intros Hagree. unfold selected_files.
    rewrite (first_failure_filter_ext fs checked1 checked2) by (intros; by apply Hagree).
    destruct (first_failure _ _); [done|]. f_equal.
    apply concat_filter_ext. intros f _ Hne. apply Hagree.
    unfold file_entries in Hne. by destruct (fs f).
  - intros Hmore l2 Hl2.
    destruct (first_failure fs (selected_files checked2)) eqn:H2; [done|].
    injection Hl2 as <-.
    assert (first_failure fs (selected_files checked1) = None) as ->.
    { rewrite first_failure_None in H2 |- *.
      intros f p [Hin Hf]%elem_of_List_filter. apply H2.
      apply elem_of_List_filter. split; [done|by apply Hmore]. }
    eexists. split; [done|]. by apply concat_filter_sublist.
Qed.

Lemma selection_changes_witness :
  strips_spaces (H:=toy_env) is_space
  ∧ (∃ l1, load_selected_words (H:=toy_env) is_space toy_fs
             (λ f, bool_decide (f = "THUOCL_diming.txt"%string)) = inr l1
           ∧ l1 `sublist_of`
               [([0x91cd%N; 0x5e86%N], [0x5730; 0x540d; 0x8bcd; 0x5e93]%N);
                ([0x4ece%N; 0x5bb9%N], [0x5730; 0x540d; 0x8bcd; 0x5e93]%N)]).
Proof.
  split; [exact toy_strip_spaces|].
  apply (proj2 (selection_changes (H:=toy_env) is_space toy_fs
                  (λ f, bool_decide (f = "THUOCL_diming.txt"%string)) toy_checked
                  toy_strip_spaces)).
  - intros f ->%bool_decide_eq_true. reflexivity.
  - reflexivity.
Defined.

(** ** What the search leaves in [chosen] *)

Section search_state.
Context (n : nat) (possibilities : list (list Reading)).
Context (amb exc : gmap string (list (list N))).
Hypothesis Hposs : length possibilities = n.

Lemma try_each_found descend i pre ps (chosen chosen' : list (option Reading)) :
  i < n → length pre = i →
  (∀ p chosen, length chosen = n → take (S i) chosen = Some <$> (pre ++ [p]) →
               backtrack_post n possibilities amb exc (S i) (pre ++ [p]) (descend chosen)) →
  (∀ p chosen chosen', length chosen = n → take (S i) chosen = Some <$> (pre ++ [p]) →
     descend chosen = Return (true, chosen') →
     ∃ suf, chosen' = Some <$> ((pre ++ [p]) ++ suf)
            ∧ completes possibilities amb exc (S i) (pre ++ [p]) suf) →
  length chosen = n → take i chosen = Some <$> pre →
  try_each exc descend i ps chosen = Return (true, chosen') →
  ∃ p suf, p ∈ ps ∧ excluded exc p = false
           ∧ chosen' = Some <$> ((pre ++ [p]) ++ suf)
           ∧ completes possibilities amb exc (S i) (pre ++ [p]) suf.
Proof.
  intros Hi Hpre Hpost Hfound. revert chosen.
  induction ps as [|p ps IH]; intros chosen Hlen Htake; simpl; [done|].
  destruct (excluded exc p) eqn:Hex.
  - intros (q & suf & ? & ?)%IH; [|done..]. exists q, suf. split; [by right|done].
  - rewrite py_setitem_lt by lia. simpl.
    assert (length (<[i:=Some p]> chosen) = n) as Hl1 by by rewrite length_insert.
    pose proof (take_chosen_step n possibilities Hposs chosen i pre p Hlen Hi Htake) as Ht1.
    destruct (Hpost p _ Hl1 Ht1) as (b & chosen2 & Hd & Hl2 & Ht2 & _).
    rewrite Hd. simpl. destruct b.
    + intros [= <-]. destruct (Hfound p _ chosen2 Hl1 Ht1 Hd) as (suf & ? & ?).
      exists p, suf. split_and!; [left|done..].
    + intros (q & suf & ? & ?)%IH; [|done|by eapply (take_chosen_back n possibilities Hposs)].
      exists q, suf. split; [by right|done].
Qed.

Lemma backtrack_found fuel i pre (chosen chosen' : list (option Reading)) :
  i ≤ n → n - i < fuel → length pre = i →
  length chosen = n → take i chosen = Some <$> pre →
  backtrack n possibilities amb exc fuel i chosen = Return (true, chosen') →
  ∃ suf, chosen' = Some <$> (pre ++ suf) ∧ completes possibilities amb exc i pre suf.
Proof.
  revert i pre chosen chosen'.
  induction fuel as [|fuel IH]; intros i pre chosen chosen' Hi Hfuel Hpre Hlen Htake; [lia|].
  simpl. case_bool_decide as Hin.
  - rewrite Hin in Hpre, Htake |- *. clear Hin Hi Hfuel i.
    rewrite take_ge in Htake by lia. rewrite Htake, check_complete_Some. simpl.
    intros [= Hc <-]. exists []. rewrite app_nil_r. split; [done|].
    by apply (completes_last n possibilities amb exc Hposs).
  - destruct (lookup_lt_is_Some_2 possibilities i) as [ps Hps]; [lia|]. rewrite Hps.
    rewrite Nat.add_1_r.
    intros (p & suf & ? & ? & -> & ?)%(try_each_found _ i pre); [|lia|done| | |done..].
    + exists (p :: suf). rewrite <-app_assoc. split; [done|].
      apply (completes_step possibilities amb exc i ps); eauto 10.
    + intros p chosen1 Hl1 Ht1. apply backtrack_spec; [done|lia|lia| |done..].
      rewrite length_app. simpl. lia.
    + intros p chosen1 chosen2 Hl1 Ht1. apply IH; [lia|lia| |done..].
      rewrite length_app. simpl. lia.
Qed.
End search_state.

(** X18. When [backtrack(0)] returns [True], the list [chosen] holds the
    assignment it accepted: one reading per position, each taken from the
    candidates of its position, none carrying an excluded value, together
    meeting the must-exist constraint.  For the candidate lists of a word
    it is a satisfying assignment of that word. *)
Theorem search_leaves_assignment :
  (∀ n possibilities amb exc fuel (chosen' : list (option Reading)),
     length possibilities = n → n < fuel →
     backtrack n possibilities amb exc fuel 0 (replicate n None) = Return (true, chosen') →
     ∃ a, chosen' = Some <$> a ∧ completes possibilities amb exc 0 [] a)
  ∧ (∀ (E : PyEnv) (word : list N) sp amb exc (chosen' : list (option Reading)),
       backtrack (length word) (candidates sp 0 word) amb exc (S (length word)) 0
                 (replicate (length word) None) = Return (true, chosen') →
       ∃ a, chosen' = Some <$> a ∧ satisfying_assignment word sp amb exc a).
Proof.
  assert (∀ n possibilities amb exc fuel (chosen' : list (option Reading)),
     length possibilities = n → n < fuel →
     backtrack n possibilities amb exc fuel 0 (replicate n None) = Return (true, chosen') →
     ∃ a, chosen' = Some <$> a ∧ completes possibilities amb exc 0 [] a) as Hgen.
  { intros n possibilities amb exc fuel chosen' Hlen Hfuel Hb.
    apply (backtrack_found n possibilities amb exc Hlen fuel 0 []) in Hb;
      [done|lia|lia|done|by rewrite length_replicate|done]. }
  split; [exact Hgen|].
  intros E word sp amb exc chosen' Hb.
  apply Hgen in Hb as (a & -> & Ha); [|apply length_candidates|lia].
  exists a. split; [done|]. by apply completes_candidates.
Qed.

Lemma search_leaves_assignment_witness :
  ∃ a, [Some ch_ong_2] = Some <$> a
       ∧ completes [[zh_ong_4; ch_ong_2]] {[ "tone"%string := [lit "2"] ]} ∅ 0 [] a.
Proof.
  apply (proj1 search_leaves_assignment 1 [[zh_ong_4; ch_ong_2]]
           {[ "tone"%string := [lit "2"] ]} ∅ 2); [done|lia|reflexivity].
Defined.

(** ** Pruning before the search *)

Lemma excluded_empty p : excluded ∅ p = false.
Proof. apply excluded_false. intros (field & values & v & Hl & _). by rewrite lookup_empty in Hl. Qed.

Lemma completes_prune possibilities amb exc a :
  completes (prune exc possibilities) amb ∅ 0 [] a ↔ completes possibilities amb exc 0 [] a.
Proof.
  unfold completes, prune. rewrite !drop_0.
  assert (Forall (λ p, excluded ∅ p = false) a) as Hempty.
  { apply Forall_forall. intros p _. apply excluded_empty. }
  assert (Forall2 (λ p ps, p ∈ ps) a
            (List.filter (λ p, negb (excluded exc p)) <$> possibilities)
          ↔ Forall2 (λ p ps, p ∈ ps) a possibilities
            ∧ Forall (λ p, excluded exc p = false) a) as ->; [|tauto].
  clear Hempty. revert a. induction possibilities as [|ps possibilities IH]; intros a; simpl.
  - split.
    + intros ->%Forall2_nil_inv_r. split; constructor.
    + intros [->%Forall2_nil_inv_r _]. constructor.
  - split.
    + intros (p & a' & [Hp Hex]%elem_of_List_filter & [? ?]%IH & ->)%Forall2_cons_inv_r.
      apply negb_true_iff in Hex. split; by constructor.
    + intros [(p & a' & Hp & Ha' & ->)%Forall2_cons_inv_r [Hex Hex']%Forall_cons].
      constructor; [|by apply IH]. apply elem_of_List_filter. split; [done|].
      by apply negb_true_iff.
Qed.

(** X19. Dropping from every candidate list the readings that carry an
    excluded value, and then searching with no exclusion at all, gives the
    same answer as the search that tests the exclusion reading by
    reading. *)
Theorem prune_before_search n possibilities amb exc fuel :
  length possibilities = n → n < fuel →
  fst <$> backtrack n (prune exc possibilities) amb ∅ fuel 0 (replicate n None)
  = fst <$> backtrack n possibilities amb exc fuel 0 (replicate n None).
Proof.
  intros Hlen Hfuel.
  destruct (backtrack_top n possibilities amb exc Hlen fuel Hfuel)
    as (b1 & c1 & -> & _ & _ & Hb1).
  assert (length (prune exc possibilities) = n) as Hlen'.
  { unfold prune. by rewrite length_fmap. }
  destruct (backtrack_top n (prune exc possibilities) amb ∅ Hlen' fuel Hfuel)
    as (b2 & c2 & -> & _ & _ & Hb2).
  simpl. f_equal. apply eq_true_iff_eq. rewrite Hb1, Hb2.
  by setoid_rewrite completes_prune.
Qed.

Lemma prune_before_search_witness :
  fst <$> backtrack 1 (prune {[ "initial"%string := [lit "zh"] ]} [[zh_ong_4; ch_ong_2]])
            ∅ ∅ 2 0 (replicate 1 None)
  = fst <$> backtrack 1 [[zh_ong_4; ch_ong_2]] ∅ {[ "initial"%string := [lit "zh"] ]}
              2 0 (replicate 1 None).
Proof.
  apply (prune_before_search 1 [[zh_ong_4; ch_ong_2]] ∅
           {[ "initial"%string := [lit "zh"] ]} 2); [done|lia].
Defined.

(** ** A row left beyond the length, and lengths that are not positive *)

Lemma match_loop_none `{PyEnv} rq (words : list (list N * list N)) acc :
  (∀ e, e ∈ words → matches rq e.1 ≠ Return true) →
  (∀ e, e ∈ words → ∀ x, matches rq e.1 = Raise x → x = IndexError) →
  match_loop rq words acc = Raise IndexError ∨ match_loop rq words acc = Return acc.
Proof.
  revert acc. induction words as [|[w t] words IH]; intros acc Hno Hexn; simpl; [by right|].
  pose proof (matches_fuel rq w) as Hfuel.
  pose proof (Hno (w, t)) as Hw. pose proof (Hexn (w, t)) as Hx. simpl in Hw, Hx.
  destruct (matches rq w) as [[]|x|]; simpl.
  - destruct Hw; [left|done].
  - apply IH; intros e He; [apply Hno|apply Hexn]; by right.
  - left. f_equal. apply Hx; [left|done].
  - done.
Qed.

Lemma matches_Raise `{PyEnv} rq (word : list N) x : matches rq word = Raise x → x = IndexError.
Proof.
  unfold matches. intros Hm.
  pose proof (word_matches_check_exact word (specific_reqs rq) (ambiguous_reqs rq)
                (exclude_reqs rq) (exact_char_reqs rq) (ambiguous_chars rq)
                (non_exist_chars rq)) as Hw.
  destruct (check_exact word (exact_char_reqs rq)) as [ok|e|] eqn:Hex; [| |done].
  - destruct Hw as [b Hb]. congruence.
  - apply check_exact_Raise in Hex as [-> _]. congruence.
Qed.

(** X20. A row that lies at or beyond the target length and still holds an
    exact character spoils the search: it never returns a word.  It raises
    [IndexError], or, when no word of that length passes the exact
    characters tested before, returns the empty list. *)
Theorem stale_exact_row `{PyEnv} (form : Form) (words : list (list N * list N)) len
    i inp c rest :
  position_inputs form !! i = Some inp → py_strip (pos_exact inp) = c :: rest →
  (len ≤ Z.of_nat i)%Z →
  search_words form words len = Raise IndexError
  ∨ search_words form words len = Return [].
Proof.
  intros Hrow Hexact Hi. unfold search_words, filter_words.
  assert ((Z.of_nat i, c) ∈ exact_char_reqs (build_request form)) as Hitem.
  { assert (exact_char_reqs (build_request form)
            = (read_positions 0 (position_inputs form) ∅ []).2) as ->.
    { unfold build_request. by destruct (read_positions _ _ _ _). }
    destruct (read_positions_spec 0 (position_inputs form) ∅ []) as [-> _].
    { intros k c' Hin. by apply elem_of_nil in Hin. }
    apply exact_items_keys. exists i, inp, rest. done. }
  apply match_loop_none.
  - intros [w t] [_ Hlen%bool_decide_eq_true]%elem_of_List_filter. simpl in *.
    unfold matches. intros (Hex & _)%word_matches_true.
    pose proof (proj1 (check_exact_true _ _) Hex _ _ Hitem) as Hidx.
    apply py_index_Return in Hidx as (j & Hj%lookup_lt_Some & Hk). lia.
  - intros e _ x. apply matches_Raise.
Qed.

Lemma stale_exact_row_witness :
  search_words (H:=toy_env)
    (mkForm [blank_row; blank_row; mkPositionInput [] [] [] [0x5e86%N]] [] [] [] [] [] [] [] [])
    [chongqing; congrong] 2 = Raise IndexError
  ∨ search_words (H:=toy_env)
      (mkForm [blank_row; blank_row; mkPositionInput [] [] [] [0x5e86%N]] [] [] [] [] [] [] [] [])
      [chongqing; congrong] 2 = Return [].
Proof.
  apply (stale_exact_row (H:=toy_env) _ _ 2%Z 2 (mkPositionInput [] [] [] [0x5e86%N])
           0x5e86%N []); [reflexivity|reflexivity|lia].
Defined.

(** X21. The matcher is called only on words whose length is the target:
    for a length that is negative, and for the length zero when no word of
    the list is empty, the search returns the empty list, whatever the
    request, and raises nothing. *)
Theorem nonpositive_length `{PyEnv} rq (words : list (list N * list N)) len :
  (len ≤ 0)%Z → (∀ w t, (w, t) ∈ words → w ≠ []) →
  filter_words words len rq = Return [].
Proof.
  intros Hlen Hne. unfold filter_words.
  assert (List.filter (λ wt : list N * list N, bool_decide (Z.of_nat (length wt.1) = len))
            words = []) as ->; [|done].
  induction words as [|[w t] words IH]; simpl; [done|].
  rewrite bool_decide_false.
  - apply IH. intros w' t' Hin. apply (Hne w' t'). by right.
  - intros Hw. destruct w; [by destruct (Hne [] t); [left|]|]. simpl in Hw. lia.
Qed.

Lemma nonpositive_length_witness :
  (0 ≤ 0)%Z ∧ filter_words (H:=toy_env) [chongqing; congrong] 0 tone4_q = Return [].
Proof.
  split; [lia|]. apply (nonpositive_length (H:=toy_env)); [lia|].
  intros w t Hin. rewrite !elem_of_cons, elem_of_nil in Hin.
  destruct Hin as [[= -> _]|[[= -> _]|[]]]; done.
Defined.

(** ** The longest initial *)

Lemma initials_prefix_free :
  Forall (λ ini, ini ≠ [] ∧ ∀ ini', ini' ∈ initials_list →
                 ini `prefix_of` ini' → ini = ini' ∨ length ini' = 2 ∧ length ini = 1)
         initials_list.
Proof.
  apply Forall_forall. intros ini Hini. split.
  - intros ->. revert Hini. unfold initials_list. simpl.
    rewrite !elem_of_cons, elem_of_nil. vm_compute. intuition discriminate.
  - intros ini' Hini' Hpre.
    assert (∀ x, x ∈ initials_list → length x = 1 ∨ x = lit "zh" ∨ x = lit "ch" ∨ x = lit "sh")
      as Hshape.
    { intros x. unfold initials_list. simpl. rewrite !elem_of_cons, elem_of_nil.
      intros Hx. repeat (destruct Hx as [-> |Hx]; [vm_compute; tauto|]). done. }
    destruct (Hshape ini Hini) as [H1|H2], (Hshape ini' Hini') as [H1'|H2'].
    + left. destruct Hpre as [k ->]. rewrite length_app in H1'.
      assert (length k = 0) as ->%nil_length_inv by lia. by rewrite app_nil_r.
    + right. split; [|done]. by destruct H2' as [-> | [-> | ->]].
    + apply prefix_length in Hpre. destruct H2 as [-> | [-> | ->]]; simpl in Hpre; lia.
    + left. destruct Hpre as [k Hk].
      assert (length ini = 2 ∧ length ini' = 2) as [Hl Hl'].
      { by destruct H2 as [-> | [-> | ->]], H2' as [-> | [-> | ->]]. }
      apply (f_equal length) in Hk as Hlen. rewrite length_app in Hlen.
      assert (length k = 0) as ->%nil_length_inv by lia. by rewrite app_nil_r in Hk.
Qed.

Lemma find_initial_longest (syllable ini' : list N) :
  ini' ∈ initials_list → ini' `prefix_of` syllable →
  ini' `prefix_of` find_initial initials_list syllable [].
Proof.
  intros Hin' Hpre'.
  destruct (find_initial_cases initials_list syllable []) as [(k & Hk & Hpre & Hfirst)|[_ Hno]];
    [|by destruct (Hno ini')].
  remember (find_initial initials_list syllable []) as ini eqn:Hini. clear Hini.
  destruct (prefix_weak_total _ _ _ Hpre' Hpre) as [Hle|Hle]; [done|].
  pose proof initials_prefix_free as Hfree. rewrite Forall_forall in Hfree.
  destruct (Hfree ini) as [_ Hext]; [by eapply list_elem_of_lookup_2|].
  destruct (Hext ini' Hin' Hle) as [-> |[Hlen' Hlen]]; [done|].
  apply list_elem_of_lookup in Hin' as [j Hj].
  assert (3 ≤ k) as Hk3.
  { destruct k as [|[|[|k]]]; [vm_compute in Hk; injection Hk as Hk; by rewrite <-Hk in Hlen..|lia]. }
  assert (j < k) as Hjk.
  { destruct (decide (j < k)) as [?|Hge]; [done|].
    assert (Forall (λ x : list N, length x = 1) (drop 3 initials_list)) as Hone.
    { vm_compute. repeat constructor. }
    rewrite Forall_forall in Hone. rewrite (Hone ini') in Hlen'; [done|].
    apply list_elem_of_lookup. exists (j - 3). rewrite lookup_drop. rewrite <-Hj. f_equal. lia. }
  by destruct (Hfirst j ini' Hjk Hj).
Qed.

(** X22. The initial of a reading is the longest entry of
    [initials_list] that the syllable starts with: every entry of the list
    that is a prefix of the syllable (the initial followed by the final) is
    a prefix of the initial, so that no listed initial reaches into the
    final. *)
Theorem longest_initial (py : list N) r ini :
  split_pinyin py = Return r →
  ini ∈ initials_list → ini `prefix_of` initial r ++ final r →
  ini `prefix_of` initial r.
Proof.
  unfold split_pinyin. destruct (split_tone py) as [[tone syllable]| |]; [|done..].
  cbn [mbind res_bind]. cbv zeta.
  generalize (find_initial_prefix initials_list syllable),
    (find_initial_longest syllable ini).
  generalize (find_initial initials_list syllable []). intros found Hfound Hlongest.
  intros [= <-]. cbn [initial final]. intros Hin.
  rewrite <-(prefix_app_drop found syllable Hfound). by apply Hlongest.
Qed.

Lemma longest_initial_witness :
  lit "s" `prefix_of` initial (reading_of (lit "shui3")).
Proof.
  apply (longest_initial (lit "shui3") (reading_of (lit "shui3")) (lit "s")).
  - reflexivity.
  - apply list_elem_of_lookup. by exists 20.
  - by exists (lit "hui").
Defined.
